(** * Boost.Asio network-programming recipes: a shallow embedding

    The repository is a set of small synchronous TCP recipes written against
    Boost.Asio: building endpoints (chapter 1, recipe 1), resolving a DNS
    name (chapter 1, recipe 4), connecting a socket (chapter 1, recipe 6),
    writing a buffer to a socket with a manual loop and with [asio::write]
    (chapter 2, recipe 3) and composing scatter/gather buffers (chapter 6,
    recipe 1).

    Each recipe is embedded as the function it is in the source, with the
    literals that the source binds to local variables taken as arguments
    where a property ranges over them.  Boost.Asio itself and the operating
    system are collaborators of the recipes: a socket is an instance of the
    [SyncWriteStream] interface, the kernel is an explicit state that the
    recipes thread through their calls. *)

From Stdlib Require Import NArith ZArith Lia.
From Stdlib Require Import Strings.String Strings.Ascii Strings.Byte.
From stdpp Require Import base list gmap sets strings sorting.

Local Open Scope N_scope.

(** ** Machine integers and error codes *)

(** [std::size_t] on the LP64 targets the recipes are built for. *)
Definition size_t_bits : N := 64.
Definition size_t_modulus : N := 2 ^ size_t_bits.

(** Unsigned addition and subtraction of two [size_t] values wrap around. *)
Definition size_t_add (a b : N) : N := (a + b) mod size_t_modulus.
Definition size_t_sub (a b : N) : N :=
  (a + size_t_modulus - b mod size_t_modulus) mod size_t_modulus.

(** [boost::system::error_code], by its [value()]: 0 means no error. *)
Definition error_code : Type := Z.
Definition no_error : error_code := 0%Z.

(** ** Buffers *)

(** [std::string::length] of a string holding the bytes [buf]. *)
Definition string_length (buf : list byte) : N := N.of_nat (length buf).

(** A [std::string] never holds more than [size_t] can count. *)
Definition fits_size_t (buf : list byte) : Prop :=
  string_length buf < size_t_modulus.

(** [std::string::c_str]: the memory from the first character on, with the
    terminating NUL that the string keeps behind its last character. *)
Definition c_str (buf : list byte) : list byte := buf ++ [x00].

(** [p + n] on a [const char*]: the memory from the [n]-th byte on. *)
Definition ptr_add (p : list byte) (n : N) : list byte := drop (N.to_nat n) p.

(** [asio::buffer(p, n)] and [asio::const_buffer(p, n)]: a view of [n] bytes
    starting at [p].  The view does not own the memory; what an output
    operation reads through it are the first [n] bytes at [p]. *)
Definition asio_buffer (p : list byte) (n : N) : list byte :=
  take (N.to_nat n) p.

(** ** The stream a recipe writes to *)

(** What one call of [write_some] does: it reports the number of bytes it
    has written, or it fails with an error code (the overload the recipes
    call throws [system::system_error]). *)
Inductive write_result (Sock : Type) : Type :=
| Wrote (n : N) (s : Sock)
| WriteFailed (ec : error_code) (s : Sock).
Arguments Wrote {Sock} n s.
Arguments WriteFailed {Sock} ec s.

(** Boost.Asio's [SyncWriteStream] concept, as state passing: [write_some]
    takes the state of the socket and the bytes of the buffer it is given;
    [sent] observes the bytes the peer has been sent so far. *)
Class SyncWriteStream (Sock : Type) : Type := {
  write_some : Sock → list byte → write_result Sock;
  sent : Sock → list byte
}.

(** The contract of [write_some]: the count it reports is the number of
    bytes of the given buffer that went to the peer, taken from the front
    of the buffer, and a failed call sends nothing. *)
Definition write_some_contract (Sock : Type) `{SyncWriteStream Sock} : Prop :=
  ∀ (s : Sock) (d : list byte),
    match write_some s d with
    | Wrote n s' =>
        (N.to_nat n ≤ length d)%nat ∧ sent s' = sent s ++ take (N.to_nat n) d
    | WriteFailed _ s' => sent s' = sent s
    end.

(** Every attempt on a buffer that is not empty writes at least one byte
    and reports no error. *)
Definition makes_progress (Sock : Type) `{SyncWriteStream Sock} : Prop :=
  ∀ (s : Sock) (d : list byte),
    d ≠ [] → ∃ n s', write_some s d = Wrote n s' ∧ 0 < n.

(** ** Sockets with a prescribed behaviour *)

(** A socket that takes the next [chunks] entry as the most it accepts in
    one attempt, and everything once the list is used up. *)
Record trickle : Type := { chunks : list positive; trickle_out : list byte }.

Definition trickle_write_some (s : trickle) (d : list byte) : write_result trickle :=
  match chunks s with
  | [] =>
      Wrote (N.of_nat (length d)) {| chunks := []; trickle_out := trickle_out s ++ d |}
  | c :: rest =>
      let k := Nat.min (Pos.to_nat c) (length d) in
      Wrote (N.of_nat k) {| chunks := rest; trickle_out := trickle_out s ++ take k d |}
  end.

#[export] Instance trickle_stream : SyncWriteStream trickle :=
  {| write_some := trickle_write_some; sent := trickle_out |}.

(** A socket that answers its attempts as a script says: accept at most
    [n] bytes (possibly none), or fail. After the script it accepts all. *)
Inductive response : Type :=
| Accept (n : nat)
| Refuse (ec : error_code).

Record scripted : Type := { script : list response; wire : list byte }.

Definition scripted_write_some (s : scripted) (d : list byte) : write_result scripted :=
  match script s with
  | [] =>
      Wrote (N.of_nat (length d)) {| script := []; wire := wire s ++ d |}
  | Accept n :: rest =>
      let k := Nat.min n (length d) in
      Wrote (N.of_nat k) {| script := rest; wire := wire s ++ take k d |}
  | Refuse ec :: rest =>
      WriteFailed ec {| script := rest; wire := wire s |}
  end.

#[export] Instance scripted_stream : SyncWriteStream scripted :=
  {| write_some := scripted_write_some; sent := wire |}.

(** A socket on which no attempt ever writes a byte, and none fails. *)
Record stalled : Type := { stalled_out : list byte }.

#[export] Instance stalled_stream : SyncWriteStream stalled :=
  {| write_some := λ s _, Wrote 0 s; sent := stalled_out |}.

(** ** Chapter 2, recipe 3: writing to a TCP socket *)

Module Ch02Recipe03.

(** One evaluation of the body of the [while] loop: the value of
    [total_bytes_written] it starts from and the buffer passed to
    [write_some]. *)
Record attempt : Type := { at_offset : N; at_data : list byte }.

(** How a run of the loop stands when it stops or when the budget of
    iterations is used up: the function has returned, [write_some] has
    thrown out of it, or the loop is still running. Each carries the value
    of [total_bytes_written] and the state of the socket. *)
Inductive outcome (Sock : Type) : Type :=
| Returned (total : N) (s : Sock)
| Threw (ec : error_code) (total : N) (s : Sock)
| StillRunning (total : N) (s : Sock).
Arguments Returned {Sock} total s.
Arguments Threw {Sock} ec total s.
Arguments StillRunning {Sock} total s.

Definition bytes_written {Sock : Type} (o : outcome Sock) : N :=
  match o with
  | Returned t _ | Threw _ t _ | StillRunning t _ => t
  end.

Definition socket_of {Sock : Type} (o : outcome Sock) : Sock :=
  match o with
  | Returned _ s | Threw _ _ s | StillRunning _ s => s
  end.

(** The buffer of one attempt:
    [asio::buffer(buf.c_str() + total_bytes_written,
                  buf.length() - total_bytes_written)]. *)
Definition unwritten_tail (buf : list byte) (total : N) : list byte :=
  asio_buffer (ptr_add (c_str buf) total) (size_t_sub (string_length buf) total).

(** The loop of [writeToSocket] (step 3), for at most [fuel] iterations,
    with the attempts it makes:
<<
    while (total_bytes_written != buf.length())
        total_bytes_written += sock.write_some(asio::buffer(...));
>> *)
Fixpoint write_loop {Sock : Type} `{SyncWriteStream Sock}
    (fuel : nat) (buf : list byte) (total : N) (s : Sock)
    : list attempt * outcome Sock :=
  if total =? string_length buf then ([], Returned total s)
  else
    match fuel with
    | O => ([], StillRunning total s)
    | S fuel' =>
        let d := unwritten_tail buf total in
        let a := {| at_offset := total; at_data := d |} in
        match write_some s d with
        | Wrote n s' =>
            let '(log, o) := write_loop fuel' buf (size_t_add total n) s' in
            (a :: log, o)
        | WriteFailed ec s' => ([a], Threw ec total s')
        end
    end.

(** The values [total_bytes_written] takes in a run, one per evaluation of
    the loop condition that the run has reached. *)
Definition trajectory {Sock : Type} (run : list attempt * outcome Sock) : list N :=
  map at_offset run.1 ++ [bytes_written run.2].

(** The string both functions of the recipe send. *)
Definition Hello : list byte := list_byte_of_string "Hello".

(** [writeToSocket]: [buf = "Hello"], [total_bytes_written = 0], the loop. *)
Definition writeToSocket {Sock : Type} `{SyncWriteStream Sock}
    (fuel : nat) (sock : Sock) : list attempt * outcome Sock :=
  let buf := Hello in
  let total_bytes_written := 0 in
  write_loop fuel buf total_bytes_written sock.

(** The most that [asio::write] hands to one attempt under its default
    completion condition [transfer_all]. *)
Definition default_max_transfer_size : N := 65536.

(** [asio::write(sock, buffers)] with the default completion condition
    [transfer_all]. The function belongs to Boost.Asio, not to the
    repository; this follows its documented behaviour (the call returns
    when all of the data has been written or an error occurred, and is
    implemented in terms of calls to the stream's [write_some]) and the
    shape of its implementation: a consuming view [tmp] of the buffers,
    of which each attempt is handed at most [default_max_transfer_size]
    bytes and from whose front the bytes written are dropped. *)
Fixpoint asio_write_loop {Sock : Type} `{SyncWriteStream Sock}
    (fuel : nat) (tmp : list byte) (total_transferred : N) (s : Sock)
    : outcome Sock :=
  match tmp with
  | [] => Returned total_transferred s
  | _ :: _ =>
      match fuel with
      | O => StillRunning total_transferred s
      | S fuel' =>
          match write_some s (asio_buffer tmp default_max_transfer_size) with
          | Wrote n s' =>
              asio_write_loop fuel' (drop (N.to_nat n) tmp)
                (size_t_add total_transferred n) s'
          | WriteFailed ec s' => Threw ec total_transferred s'
          end
      end
  end.

Definition asio_write {Sock : Type} `{SyncWriteStream Sock}
    (fuel : nat) (s : Sock) (buffers : list byte) : outcome Sock :=
  asio_write_loop fuel buffers 0 s.

(** [writeToSocketEnhanced]: [buf = "Hello"], one call of [asio::write]. *)
Definition writeToSocketEnhanced {Sock : Type} `{SyncWriteStream Sock}
    (fuel : nat) (sock : Sock) : outcome Sock :=
  let buf := Hello in
  asio_write fuel sock buf.

End Ch02Recipe03.

(** ** Chapter 6, recipe 1: composite buffers for scatter/gather I/O *)

Module Ch06Recipe01.

(** [asio::const_buffer] and [asio::mutable_buffer]: the memory the pointer
    of the buffer refers to and the size the buffer was given. *)
Record simple_buffer : Type := { buf_data : list byte; buf_size : N }.

Definition const_buffer (p : list byte) (n : N) : simple_buffer :=
  {| buf_data := p; buf_size := n |}.
Definition mutable_buffer (p : list byte) (n : N) : simple_buffer :=
  {| buf_data := p; buf_size := n |}.

(** [std::vector::push_back]. *)
Definition push_back {A : Type} (v : list A) (x : A) : list A := v ++ [x].

(** A string literal bound to a [const char*]: its characters and a NUL. *)
Definition literal (s : string) : list byte := c_str (list_byte_of_string s).

(** [CompositeBuffersGatherOutput], steps 1 to 4; the composite buffer the
    function has built when it reaches step 5. *)
Definition CompositeBuffersGatherOutput : list simple_buffer :=
  let part1 := literal "Hello " in
  let part2 := literal "my " in
  let part3 := literal "friend!" in
  let composite_buffer := [] in
  let composite_buffer := push_back composite_buffer (const_buffer part1 6) in
  let composite_buffer := push_back composite_buffer (const_buffer part2 3) in
  let composite_buffer := push_back composite_buffer (const_buffer part3 7) in
  composite_buffer.

(** [sizeof] of a [char] array of [n] elements. *)
Definition sizeof {n : nat} (a : vec byte n) : N := N.of_nat n.

(** [CompositeBuffersScatterInput], steps 1 to 3, for whatever the three
    arrays hold when they are allocated. *)
Definition CompositeBuffersScatterInput
    (part1 : vec byte 6) (part2 : vec byte 3) (part3 : vec byte 7)
    : list simple_buffer :=
  let composite_buffer := [] in
  let composite_buffer :=
    push_back composite_buffer (mutable_buffer (vec_to_list part1) (sizeof part1)) in
  let composite_buffer :=
    push_back composite_buffer (mutable_buffer (vec_to_list part2) (sizeof part2)) in
  let composite_buffer :=
    push_back composite_buffer (mutable_buffer (vec_to_list part3) (sizeof part3)) in
  composite_buffer.

(** A buffer sequence made of the given segments in their order, built the
    way both functions build theirs: an empty vector, one [push_back] per
    segment. *)
Definition sequenceOf (segments : list simple_buffer) : list simple_buffer :=
  fold_left push_back segments [].

(** The total length of a buffer sequence, accumulated over its segments
    from the first to the last as [asio::buffer_size] does. *)
Definition buffer_size (buffers : list simple_buffer) : N :=
  fold_left (λ total b, total + buf_size b) buffers 0.

(** The bytes of one segment and of a whole sequence: what an output
    operation sees when it takes the composite buffer "as if it was a
    simple buffer represented by contiguous block of memory". *)
Definition segment_bytes (b : simple_buffer) : list byte :=
  asio_buffer (buf_data b) (buf_size b).

Definition gathered (buffers : list simple_buffer) : list byte :=
  concat (map segment_bytes buffers).

(** The sum of the lengths of the given segments. *)
Definition sum_of_sizes (segments : list simple_buffer) : N :=
  foldr N.add 0 (map buf_size segments).

(** A segment lies within the memory it refers to. *)
Definition within_memory (b : simple_buffer) : Prop :=
  (N.to_nat (buf_size b) ≤ length (buf_data b))%nat.

End Ch06Recipe01.

(** ** The write loop over a composite buffer *)

(** The loop of chapter 2, recipe 3, run over a composite buffer: its
    buffer is the sequence taken as one contiguous block, so that the
    offset [total_bytes_written] counts into the concatenated segments. *)
Definition writeAll {Sock : Type} `{SyncWriteStream Sock}
    (fuel : nat) (sock : Sock) (data : list Ch06Recipe01.simple_buffer)
    : list Ch02Recipe03.attempt * Ch02Recipe03.outcome Sock :=
  Ch02Recipe03.write_loop fuel (Ch06Recipe01.gathered data) 0 sock.

(** ** Addresses and endpoints *)

(** [asio::ip::address]: an IP address of either version, by the bytes of
    its network representation; a version 6 address has a scope id. *)
Inductive address : Type :=
| address_v4 (bytes : list N)
| address_v6 (bytes : list N) (scope_id : N).

(** An address is whole when it has all the bytes of its version: 4 or 16,
    each below 256. *)
Definition whole_address (a : address) : Prop :=
  match a with
  | address_v4 bs => length bs = 4%nat ∧ Forall (λ b, b < 256) bs
  | address_v6 bs _ => length bs = 16%nat ∧ Forall (λ b, b < 256) bs
  end.

(** The default-constructed [asio::ip::address()] is the version 4 address
    0.0.0.0; [asio::ip::address_v6::any()] is the all-zero version 6 one. *)
Definition address_default : address := address_v4 [0; 0; 0; 0].
Definition address_v6_any : address := address_v6 (replicate 16 0) 0.

(** [asio::ip::tcp::endpoint]: an address and a port. *)
Record endpoint : Type := { ep_address : address; ep_port : N }.

(** A value stored in an [unsigned short]. *)
Definition unsigned_short (n : N) : N := n mod 65536.

(** The constructor [asio::ip::tcp::endpoint ep(ip_address, port_num)]. *)
Definition tcp_endpoint (ip_address : address) (port_num : N) : endpoint :=
  {| ep_address := ip_address; ep_port := port_num |}.

(** ** Textual addresses *)

(** The characters of a text, fields of a text between separators, and
    fields put together again. *)
Definition text : Type := list ascii.

Fixpoint split_on (sep : ascii) (s : text) : list text :=
  match s with
  | [] => [[]]
  | c :: rest =>
      if Ascii.eqb c sep then [] :: split_on sep rest
      else
        match split_on sep rest with
        | f :: fs => (c :: f) :: fs
        | [] => [[c]]
        end
  end.

Fixpoint join (sep : ascii) (fields : list text) : text :=
  match fields with
  | [] => []
  | [f] => f
  | f :: fs => f ++ sep :: join sep fs
  end.

Definition colon : ascii := ":"%char.
Definition dot : ascii := "."%char.

Definition decimal_digit (c : ascii) : option N :=
  let n := N_of_ascii c in
  if (48 <=? n) && (n <=? 57) then Some (n - 48) else None.

Definition hex_digit (c : ascii) : option N :=
  let n := N_of_ascii c in
  if (48 <=? n) && (n <=? 57) then Some (n - 48)
  else if (65 <=? n) && (n <=? 70) then Some (n - 55)
  else if (97 <=? n) && (n <=? 102) then Some (n - 87)
  else None.

Fixpoint digits_value (base : N) (digit : ascii → option N) (acc : N) (s : text)
    : option N :=
  match s with
  | [] => Some acc
  | c :: rest =>
      match digit c with
      | Some d => digits_value base digit (base * acc + d) rest
      | None => None
      end
  end.

(** One field of a dotted-decimal address: decimal digits, no leading zero
    before another digit, a value of at most 255. *)
Definition parse_octet (f : text) : option N :=
  match f with
  | [] => None
  | c :: rest =>
      if Ascii.eqb c "0" && negb (bool_decide (rest = [])) then None
      else
        match digits_value 10 decimal_digit 0 f with
        | Some n => if n <=? 255 then Some n else None
        | None => None
        end
  end.

Definition parse_v4 (s : text) : option (list N) :=
  match mapM parse_octet (split_on dot s) with
  | Some ([_; _; _; _] as bs) => Some bs
  | _ => None
  end.

(** One group of a colon-hex address: one to four hexadecimal digits. *)
Definition parse_group (f : text) : option N :=
  match f with
  | [] => None
  | _ :: _ => if (length f <=? 4)%nat then digits_value 16 hex_digit 0 f else None
  end.

(** The text before and after the first "::" of a text, if it has one. *)
Fixpoint split_double_colon (s : text) : option (text * text) :=
  match s with
  | [] => None
  | c :: rest =>
      match rest with
      | c' :: rest' =>
          if Ascii.eqb c colon && Ascii.eqb c' colon then Some ([], rest')
          else
            match split_double_colon rest with
            | Some (p, q) => Some (c :: p, q)
            | None => None
            end
      | [] => None
      end
  end.

(** A split of a text, seen from a text that has [p] in front of it. *)
Definition before (p : text) (pq : text * text) : text * text := (p ++ pq.1, pq.2).

Definition parse_groups (s : text) : option (list N) :=
  match s with
  | [] => Some []
  | _ :: _ => mapM parse_group (split_on colon s)
  end.

(** The eight groups of a colon-hex address: all eight written out, or at
    most seven with one "::" that stands for the groups left out. *)
Definition parse_v6 (s : text) : option (list N) :=
  match split_double_colon s with
  | None =>
      match mapM parse_group (split_on colon s) with
      | Some gs => if (length gs =? 8)%nat then Some gs else None
      | None => None
      end
  | Some (p, q) =>
      match parse_groups p, parse_groups q with
      | Some pre, Some post =>
          if (length pre + length post <=? 7)%nat
          then Some (pre ++ replicate (8 - (length pre + length post)) 0 ++ post)
          else None
      | _, _ => None
      end
  end.

Definition group_bytes (g : N) : list N := [g / 256; g mod 256].

(** [boost::asio::error::invalid_argument]. *)
Definition invalid_argument : error_code := 22%Z.

(** Modelled from the spec: [asio::ip::address::from_string(str, ec)] is
    Boost.Asio's and not part of the repository. It "accepts dotted-decimal
    (v4) or colon-hex (v6) textual forms" and fails for any other input;
    as the Boost overload taking an [error_code] does, a failure is told
    by the error code and the address returned with it is the default one.
    Embedded dotted-decimal tails and scope ids of version 6 texts are
    not among the forms the spec names and are not accepted. *)
Definition from_string (str : string) : address * error_code :=
  let s := list_ascii_of_string str in
  match parse_v6 s with
  | Some gs => (address_v6 (flat_map group_bytes gs) 0, no_error)
  | None =>
      match parse_v4 s with
      | Some bs => (address_v4 bs, no_error)
      | None => (address_default, invalid_argument)
      end
  end.

(** The textual forms themselves, told without a parser. A dotted-decimal
    text is made of the decimal numerals of four numbers below 256,
    separated by dots. *)
Definition digit_char (d : N) : ascii := ascii_of_N (48 + d).

Definition decimal_text (n : N) : text :=
  if n <? 10 then [digit_char n]
  else if n <? 100 then [digit_char (n / 10); digit_char (n mod 10)]
  else [digit_char (n / 100); digit_char (n / 10 mod 10); digit_char (n mod 10)].

Definition dotted_decimal (s : text) : Prop :=
  ∃ bs : list N,
    length bs = 4%nat ∧ Forall (λ b, b < 256) bs ∧ s = join dot (map decimal_text bs).

(** A colon-hex text is made of groups of one to four hexadecimal digits
    separated by colons: eight groups, or at most seven around one "::". *)
Definition hex_group (f : text) : Prop :=
  (1 ≤ length f ≤ 4)%nat ∧ Forall (λ c, is_Some (hex_digit c)) f.

Definition colon_hex (s : text) : Prop :=
  (∃ gs, length gs = 8%nat ∧ Forall hex_group gs ∧ s = join colon gs)
  ∨ (∃ pre post,
       (length pre + length post ≤ 7)%nat
       ∧ Forall hex_group pre ∧ Forall hex_group post
       ∧ s = join colon pre ++ colon :: colon :: join colon post).

Definition conforming (str : string) : Prop :=
  let s := list_ascii_of_string str in dotted_decimal s ∨ colon_hex s.

(** ** Chapter 1, recipe 1: creating an endpoint *)

Module Ch01Recipe01.

(** How a call of [creatingEndpointClient], a function declared to return
    [int], ends: by a [return] statement with a value, or by control
    flowing off the end of the function body without one. Flowing off the
    end of a function that returns a value is undefined behaviour: the
    call yields no value and nothing is known of the program from there
    on. [falls_off_end] carries the local [ep] as it is when the closing
    brace is reached. *)
Inductive call_end : Type :=
| returns (value : Z)
| falls_off_end (ep : endpoint).

(** How a run of the program ends: [main] returns a status, or the run has
    met undefined behaviour. *)
Inductive program_end : Type :=
| exits (status : Z)
| undefined_behaviour.

Section WithParser.
(** [asio::ip::address::from_string(raw_ip_address, ec)]. *)
Variable parse : string → address * error_code.

(** [creatingEndpointClient], for the address text and the port number that
    step 1 assumes the application has obtained. The function returns the
    value of the error code when the text does not parse (step 2).
    Otherwise it constructs the endpoint [ep] (step 3) and control reaches
    the closing brace of the function: there is no [return] statement on
    that path. *)
Definition creatingEndpointClient (raw_ip_address : string) (port : N)
    : call_end :=
  let port_num := unsigned_short port in
  let '(ip_address, ec) := parse raw_ip_address in
  if negb (ec =? 0)%Z then returns ec
  else
    let ep := tcp_endpoint ip_address port_num in
    falls_off_end ep.

End WithParser.

(** [createEndpointServer]: the endpoint of step 3, on all the version 6
    addresses of the host. *)
Definition createEndpointServer (port : N) : endpoint :=
  let port_num := unsigned_short port in
  let ip_address := address_v6_any in
  let ep := tcp_endpoint ip_address port_num in
  ep.

(** [main]: the call of [creatingEndpointClient], whose value it does not
    use, the call of [createEndpointServer], and [return 0]. *)
Definition main (parse : string → address * error_code)
    (raw_ip_address : string) (client_port server_port : N) : program_end :=
  match creatingEndpointClient parse raw_ip_address client_port with
  | falls_off_end _ => undefined_behaviour
  | returns _ =>
      let _ := createEndpointServer server_port in
      exits 0%Z
  end.

End Ch01Recipe01.

(** ** Chapter 1, recipe 4: resolving a DNS name *)

Module Ch01Recipe04.

(** The name resolution of the system the recipe runs on: the addresses a
    host name stands for (none when it is unknown) and the ports that
    service names stand for. *)
Record name_service : Type := {
  hosts : string → list address;
  services : string → option N
}.

(** [asio::ip::tcp::resolver::query(host, service, flags)], with the one
    flag the recipe passes, [numeric_service]. *)
Record resolver_query : Type := {
  host_name : string;
  service_name : string;
  numeric_service : bool
}.

(** [boost::asio::error::host_not_found] and [service_not_found]. *)
Definition host_not_found : error_code := 1%Z.
Definition service_not_found : error_code := (-8)%Z.

(** A service given as a port number: decimal digits, at most 65535. *)
Definition parse_port (s : text) : option N :=
  match s with
  | [] => None
  | _ :: _ =>
      match digits_value 10 decimal_digit 0 s with
      | Some n => if n <=? 65535 then Some n else None
      | None => None
      end
  end.

(** Modelled from the spec: [resolver.resolve(query, ec)] is Boost.Asio's,
    on top of the resolution of the system, and not part of the
    repository. Under the flag [numeric_service] "the service field is
    interpreted strictly as a numeric port" and names of services are not
    looked up; the call fails "when the host cannot be resolved" or "the
    service string is non-numeric while numeric-only mode is requested";
    otherwise it yields one endpoint per address of the host, in the order
    of the resolution, each with the port of the service. *)
Definition resolve (ns : name_service) (q : resolver_query)
    : list endpoint * error_code :=
  let service := list_ascii_of_string (service_name q) in
  let port :=
    match parse_port service with
    | Some p => Some p
    | None => if numeric_service q then None else services ns (service_name q)
    end in
  match port with
  | None => ([], service_not_found)
  | Some p =>
      match hosts ns (host_name q) with
      | [] => ([], host_not_found)
      | addrs => (map (λ a, tcp_endpoint a p) addrs, no_error)
      end
  end.

(** [main], for the DNS name and the port number that step 1 assumes the
    application has obtained as strings (steps 3 to 5 and the handling of
    the error): the value the program exits with. *)
Definition main (ns : name_service) (host port_num : string) : Z :=
  let resolver_query :=
    {| host_name := host; service_name := port_num; numeric_service := true |} in
  let '(it, ec) := resolve ns resolver_query in
  if negb (ec =? 0)%Z then ec else 0%Z.

End Ch01Recipe04.

(** ** Chapter 1, recipe 6: connecting a socket *)

Module Ch01Recipe06.

(** The calls a process makes on sockets, and the part of the kernel's
    state they change: the descriptors the process holds open. *)
Inductive syscall : Type :=
| sys_socket (fd : nat)
| sys_connect (fd : nat) (ep : endpoint) (ec : error_code)
| sys_close (fd : nat).

Record kernel : Type := { open_fds : gset nat; syscalls : list syscall }.

(** What is outside the process: how many descriptors it may hold, and
    what an attempt to connect to an endpoint ends with (0: connected). *)
Record network : Type := {
  fd_limit : nat;
  connect_result : endpoint → error_code
}.

(** [EMFILE], too many open files. *)
Definition too_many_files : error_code := 24%Z.

(** Code that changes the state of the kernel and either goes on normally
    or throws a [system::system_error] carrying an error code. *)
Inductive result (A : Type) : Type :=
| Normal (a : A)
| Thrown (ec : error_code).
Arguments Normal {A} a.
Arguments Thrown {A} ec.

Definition M (A : Type) : Type := kernel → result A * kernel.

#[export] Instance M_ret : MRet M := λ A a k, (Normal a, k).
#[export] Instance M_bind : MBind M :=
  λ A B f c k,
    match c k with
    | (Normal a, k') => f a k'
    | (Thrown ec, k') => (Thrown ec, k')
    end.
Definition throw {A : Type} (ec : error_code) : M A := λ k, (Thrown ec, k).
Definition try_catch {A : Type} (body : M A) (handler : error_code → M A) : M A :=
  λ k, match body k with
       | (Normal a, k') => (Normal a, k')
       | (Thrown ec, k') => handler ec k'
       end.

Definition record (c : syscall) (k : kernel) : kernel :=
  {| open_fds := open_fds k; syscalls := syscalls k ++ [c] |}.

(** Opening a socket takes a descriptor that is not in use, unless the
    process holds as many as it may. *)
Definition socket_open (net : network) : M nat :=
  λ k, if (size (open_fds k) <? fd_limit net)%nat
       then let fd := fresh (open_fds k) in
            (Normal fd,
             {| open_fds := {[fd]} ∪ open_fds k;
                syscalls := syscalls k ++ [sys_socket fd] |})
       else (Thrown too_many_files, k).

(** [sock.connect(ep)], the overload that throws. *)
Definition socket_connect (net : network) (fd : nat) (ep : endpoint) : M unit :=
  λ k, let ec := connect_result net ep in
       let k' := record (sys_connect fd ep ec) k in
       if (ec =? 0)%Z then (Normal tt, k') else (Thrown ec, k').

Definition socket_close (fd : nat) : M unit :=
  λ k, (Normal tt,
        {| open_fds := open_fds k ∖ {[fd]};
           syscalls := syscalls k ++ [sys_close fd] |}).

(** A local [asio::ip::tcp::socket sock(ios, protocol)]: the constructor
    opens the socket where the variable is declared, and the destructor
    closes it when control leaves the block the variable lives in, by
    reaching its end or by an exception passing through. *)
Definition with_socket {A : Type} (net : network) (block : nat → M A) : M A :=
  λ k, match socket_open net k with
       | (Normal sock, k1) =>
           let '(r, k2) := block sock k1 in
           let '(_, k3) := socket_close sock k2 in
           (r, k3)
       | (Thrown ec, k1) => (Thrown ec, k1)
       end.

Section WithParser.
(** [asio::ip::address::from_string(str, ec)]. *)
Variable parse : string → address * error_code.

(** [asio::ip::address::from_string(str)], the overload that throws. *)
Definition from_string_or_throw (str : string) : M address :=
  let '(a, ec) := parse str in
  if negb (ec =? 0)%Z then throw ec else mret a.

(** [main], for the address and the port number that step 1 assumes the
    application has obtained: steps 2 to 4 in the [try] block, whose
    handler returns the value of the error code. *)
Definition main (net : network) (raw_ip_address : string) (port : N) : M Z :=
  let port_num := unsigned_short port in
  try_catch
    (ip_address ← from_string_or_throw raw_ip_address;
     let ep := tcp_endpoint ip_address port_num in
     with_socket net (λ sock, socket_connect net sock ep);;
     mret 0%Z)
    (λ e, mret e).

End WithParser.

End Ch01Recipe06.

(** ** Sample sockets and environments *)

(** A socket that accepts 2 bytes, then 1 byte, then all it is given. *)
Definition two_one_rest : trickle :=
  {| chunks := [2; 1]%positive; trickle_out := [] |}.

(** A socket whose first attempt writes nothing, and one whose third
    attempt fails with [EPIPE] after one that wrote nothing. *)
Definition stalls_once : scripted := {| script := [Accept 0]; wire := [] |}.
Definition breaks_off : scripted :=
  {| script := [Accept 2; Accept 0; Refuse 32%Z]; wire := [] |}.

Definition never_writes : stalled := {| stalled_out := [] |}.

(** A system that knows the host "localhost" and the service "http". *)
Definition loopback_only : Ch01Recipe04.name_service :=
  {| Ch01Recipe04.hosts :=
       λ h, if String.eqb h "localhost" then [address_v4 [127; 0; 0; 1]] else [];
     Ch01Recipe04.services :=
       λ s, if String.eqb s "http" then Some 80 else None |}.

(** A network on which every connection is refused ([ECONNREFUSED]), and
    a process that holds its three standard descriptors. *)
Definition refusing : Ch01Recipe06.network :=
  {| Ch01Recipe06.fd_limit := 1024;
     Ch01Recipe06.connect_result := λ _, 111%Z |}.

Definition fresh_process : Ch01Recipe06.kernel :=
  {| Ch01Recipe06.open_fds := {[0%nat; 1%nat; 2%nat]};
     Ch01Recipe06.syscalls := [] |}.

(** A network on which every connection is accepted. *)
Definition accepting : Ch01Recipe06.network :=
  {| Ch01Recipe06.fd_limit := 1024;
     Ch01Recipe06.connect_result := λ _, 0%Z |}.

(** A socket that accepts at most the next entry of [allowance] in an
    attempt and, once the list is used up, fails every attempt with the
    error code [fragile_code], which is positive. *)
Record fragile : Type := {
  allowance : list nat;
  fragile_code : positive;
  fragile_out : list byte
}.

Definition fragile_write_some (s : fragile) (d : list byte) : write_result fragile :=
  match allowance s with
  | [] => WriteFailed (Z.pos (fragile_code s)) s
  | c :: rest =>
      let k := Nat.min c (length d) in
      Wrote (N.of_nat k)
        {| allowance := rest; fragile_code := fragile_code s;
           fragile_out := fragile_out s ++ take k d |}
  end.

#[export] Instance fragile_stream : SyncWriteStream fragile :=
  {| write_some := fragile_write_some; sent := fragile_out |}.

(** A socket that accepts 2 bytes and then fails with [EPIPE]. *)
Definition two_then_broken : fragile :=
  {| allowance := [2%nat]; fragile_code := 32%positive; fragile_out := [] |}.

(** ** More of the contract of a stream *)

(** A [write_some] that fails reports an error: the code of the
    [system::system_error] it throws is not 0. *)
Definition write_failures_are_errors (Sock : Type) `{SyncWriteStream Sock} : Prop :=
  ∀ (s : Sock) (d : list byte),
    match write_some s d with
    | Wrote _ _ => True
    | WriteFailed ec _ => ec ≠ no_error
    end.

(** ** Chapter 2, recipe 1: fixed-length buffers *)

Module Ch02Recipe01.
Import Ch06Recipe01.

(** [asio::buffer(buf)] on a [std::string]: the memory of the string from
    its first character on, and the length of the string as the size. *)
Definition buffer_of_string (buf : list byte) : simple_buffer :=
  mutable_buffer (c_str buf) (string_length buf).

(** [FixedLengthBufferOutput], for the string that step 1 puts into the
    raw buffer: the representation [output_buf] of step 3. *)
Definition FixedLengthBufferOutput (buf : list byte) : simple_buffer :=
  let output_buf := buffer_of_string buf in
  output_buf.

Definition BUF_SIZE_BYTES : N := 20.

(** [FixedLengthBufferInput], for whatever the array of [BUF_SIZE_BYTES]
    characters holds when it is allocated: the representation [input_buf]
    of step 2. *)
Definition FixedLengthBufferInput (buf : vec byte 20) : simple_buffer :=
  let input_buf := mutable_buffer (vec_to_list buf) BUF_SIZE_BYTES in
  input_buf.

End Ch02Recipe01.

(** ** Chapter 2, recipe 3: the program around [writeToSocket] *)

Module Ch02Recipe03Main.
Import Ch01Recipe06 Ch02Recipe03.

(** Where a run of [main] stands: it has returned with an exit code, or it
    is inside the loop of [writeToSocket], which the budget of iterations
    has not seen the end of. *)
Inductive status : Type :=
| Exited (code : Z)
| InLoop.

Section WithParser.
(** [asio::ip::address::from_string(str, ec)]. *)
Variable parse : string → address * error_code.
Context {Sock : Type} `{SyncWriteStream Sock}.

(** [main], for the address and the port number it binds, over the state
    of the kernel and the state [peer] of the stream that the socket
    writes to once it is connected. The [try] block builds the endpoint,
    opens the socket (step 1), connects it and calls [writeToSocket]; the
    socket is a local of the block and is closed when control leaves it;
    the handler returns the value of the error code, and the program
    returns 0 when nothing was thrown. *)
Definition main (net : network) (fuel : nat) (raw_ip_address : string)
    (port : N) (peer : Sock) (k : kernel) : status * kernel * Sock :=
  let port_num := unsigned_short port in
  match from_string_or_throw parse raw_ip_address k with
  | (Thrown ec, k0) => (Exited ec, k0, peer)
  | (Normal ip_address, k0) =>
      let ep := tcp_endpoint ip_address port_num in
      match socket_open net k0 with
      | (Thrown ec, k1) => (Exited ec, k1, peer)
      | (Normal sock, k1) =>
          match socket_connect net sock ep k1 with
          | (Thrown ec, k2) => (Exited ec, (socket_close sock k2).2, peer)
          | (Normal _, k2) =>
              match (writeToSocket fuel peer).2 with
              | Returned _ peer' => (Exited 0%Z, (socket_close sock k2).2, peer')
              | Threw ec _ peer' => (Exited ec, (socket_close sock k2).2, peer')
              | StillRunning _ peer' => (InLoop, k2, peer')
              end
          end
      end
  end.

End WithParser.

End Ch02Recipe03Main.

(** * Properties *)

(** ** Arithmetic of [size_t] and buffers within their range *)

Lemma size_t_add_in_range (a b : N) :
  a + b < size_t_modulus → size_t_add a b = a + b.
Proof. intros Hlt. unfold size_t_add. by apply N.mod_small. Qed.

Lemma size_t_sub_in_range (a b : N) :
  b ≤ a → a < size_t_modulus → size_t_sub a b = a - b.
Proof.
  intros Hle Hlt. unfold size_t_sub.
  rewrite (N.mod_small b) by lia.
  replace (a + size_t_modulus - b) with ((a - b) + 1 * size_t_modulus) by lia.
  rewrite N.Div0.mod_add. apply N.mod_small. lia.
Qed.

Lemma string_length_nat (buf : list byte) :
  N.to_nat (string_length buf) = length buf.
Proof. unfold string_length. lia. Qed.

(** While the count is within the string, the buffer of an attempt is the
    part of the string from that offset on: the terminating NUL behind the
    string is never part of it. *)
Lemma unwritten_tail_in_range (buf : list byte) (total : N) :
  fits_size_t buf → total ≤ string_length buf →
  Ch02Recipe03.unwritten_tail buf total = drop (N.to_nat total) buf.
Proof.
  intros Hfit Hle. unfold Ch02Recipe03.unwritten_tail, asio_buffer, ptr_add, c_str.
  rewrite size_t_sub_in_range by done.
  unfold string_length in *.
  rewrite drop_app_le by lia.
  rewrite take_app_le by (rewrite length_drop; lia).
  apply take_ge. rewrite length_drop. lia.
Qed.

Lemma unwritten_tail_length (buf : list byte) (total : N) :
  fits_size_t buf → total ≤ string_length buf →
  N.of_nat (length (Ch02Recipe03.unwritten_tail buf total)) = string_length buf - total.
Proof.
  intros Hfit Hle. rewrite unwritten_tail_in_range by done.
  rewrite length_drop. unfold string_length. lia.
Qed.

(** ** The sockets with a prescribed behaviour keep the contract *)

Lemma trickle_contract : write_some_contract trickle.
Proof.
  intros [cs out] d. simpl. unfold trickle_write_some. simpl.
  destruct cs as [|c rest]; simpl.
  - rewrite Nat2N.id. split; [lia|]. by rewrite take_ge by lia.
  - rewrite Nat2N.id. split; [lia|done].
Qed.

Lemma trickle_progress : makes_progress trickle.
Proof.
  intros [cs out] d Hd. simpl. unfold trickle_write_some. simpl.
  assert (0 < length d)%nat by (destruct d; [done|simpl; lia]).
  destruct cs as [|c rest]; simpl; eexists _, _; (split; [reflexivity|lia]).
Qed.

Lemma scripted_contract : write_some_contract scripted.
Proof.
  intros [sc w] d. simpl. unfold scripted_write_some. simpl.
  destruct sc as [|[n|ec] rest]; simpl.
  - rewrite Nat2N.id. split; [lia|]. by rewrite take_ge by lia.
  - rewrite Nat2N.id. split; [lia|done].
  - done.
Qed.

Lemma stalled_contract : write_some_contract stalled.
Proof. intros s d. simpl. split; [lia|]. by rewrite take_0, app_nil_r. Qed.

(** ** The loop of [writeToSocket] *)

Section WriteLoop.
Context {Sock : Type} `{SyncWriteStream Sock}.
Import Ch02Recipe03.

Lemma write_loop_exit (fuel : nat) (buf : list byte) (total : N) (s : Sock) :
  total = string_length buf →
  write_loop fuel buf total s = ([], Returned total s).
Proof.
  intros ->. destruct fuel; simpl; by rewrite N.eqb_refl.
Qed.

Lemma write_loop_no_fuel (buf : list byte) (total : N) (s : Sock) :
  total ≠ string_length buf →
  write_loop 0 buf total s = ([], StillRunning total s).
Proof.
  intros Hne. unfold write_loop. by apply N.eqb_neq in Hne as ->.
Qed.

Lemma write_loop_step (fuel : nat) (buf : list byte) (total : N) (s : Sock) :
  total ≠ string_length buf →
  write_loop (S fuel) buf total s =
    let d := unwritten_tail buf total in
    let a := {| at_offset := total; at_data := d |} in
    match write_some s d with
    | Wrote n s' =>
        let '(log, o) := write_loop fuel buf (size_t_add total n) s' in
        (a :: log, o)
    | WriteFailed ec s' => ([a], Threw ec total s')
    end.
Proof.
  intros Hne. simpl. by apply N.eqb_neq in Hne as ->.
Qed.

(** The invariant of the loop, from any count within the string. *)
Lemma write_loop_invariant (buf : list byte) :
  fits_size_t buf → write_some_contract Sock →
  ∀ (fuel : nat) (total : N) (s : Sock) log o,
    total ≤ string_length buf →
    write_loop fuel buf total s = (log, o) →
    Forall (λ a, total ≤ at_offset a < string_length buf
                 ∧ at_data a = drop (N.to_nat (at_offset a)) buf) log
    ∧ StronglySorted N.le (trajectory (log, o))
    ∧ total ≤ bytes_written o ≤ string_length buf
    ∧ sent (socket_of o) =
        sent s ++ take (N.to_nat (bytes_written o - total)) (drop (N.to_nat total) buf)
    ∧ match o with
      | Returned t _ => t = string_length buf
      | Threw _ t _ | StillRunning t _ => t < string_length buf
      end.
Proof.
  intros Hfit Hlaw. unfold trajectory. simpl.
  induction fuel as [|fuel IH]; intros total s log o Hle Hrun.
  - simpl in Hrun. destruct (N.eqb_spec total (string_length buf)) as [->|Hne];
      inversion Hrun; subst; simpl.
      all: split_and!. all: try lia. all: try by rewrite N.sub_diag, take_0, app_nil_r.
      all: try apply Forall_nil_2. all: repeat constructor. all: lia.
  - destruct (N.eq_dec total (string_length buf)) as [Heq|Hne].
    { rewrite write_loop_exit in Hrun by done. inversion Hrun; subst o log. simpl.
      split_and!; [apply Forall_nil_2|repeat constructor|lia|lia|
                   by rewrite N.sub_diag, take_0, app_nil_r|done]. }
    rewrite write_loop_step in Hrun by done. simpl in Hrun.
    pose proof (Hlaw s (unwritten_tail buf total)) as Hw.
    rewrite unwritten_tail_in_range in Hrun, Hw by done.
    destruct (write_some s (drop (N.to_nat total) buf)) as [n s'|ec s'].
    + destruct Hw as [Hn Hsent]. rewrite length_drop in Hn.
      pose proof (string_length_nat buf) as Hlen.
      assert (Hsum : total + n ≤ string_length buf) by lia.
      unfold fits_size_t in Hfit.
      rewrite size_t_add_in_range in Hrun by lia.
      destruct (write_loop fuel buf (total + n) s') as [log' o'] eqn:Hrec.
      inversion Hrun; subst o log.
      destruct (IH _ _ _ _ Hsum Hrec) as (Hall & Hsorted & Hbw & Hs & Hexit).
      split_and!.
      * constructor; simpl; [split; [lia|done]|].
        eapply Forall_impl; [exact Hall|]. simpl. intros a [? ?]. split; [lia|done].
      * simpl. apply StronglySorted_cons. split; [|done].
        apply Forall_app. split.
        -- apply Forall_fmap. eapply Forall_impl; [exact Hall|]. simpl. intros a [? ?]. lia.
        -- repeat constructor. lia.
      * lia.
      * lia.
      * rewrite Hs, Hsent, <- app_assoc. f_equal.
        replace (N.to_nat (bytes_written o' - total))
          with (N.to_nat n + N.to_nat (bytes_written o' - (total + n)))%nat by lia.
        rewrite <- take_take_drop, drop_drop. do 3 f_equal. lia.
      * done.
    + inversion Hrun; subst o log. simpl.
      split_and!.
      * repeat constructor; simpl; lia.
      * repeat constructor. simpl. lia.
      * lia.
      * lia.
      * by rewrite Hw, N.sub_diag, take_0, app_nil_r.
      * lia.
Qed.

(** Once a run has stopped, a larger budget of iterations changes nothing. *)
Lemma write_loop_fuel_mono (buf : list byte) (fuel fuel' : nat) :
  (fuel ≤ fuel')%nat →
  ∀ (total : N) (s : Sock) log o,
    write_loop fuel buf total s = (log, o) →
    (∀ t s', o ≠ StillRunning t s') →
    write_loop fuel' buf total s = (log, o).
Proof.
  intros Hle. revert fuel' Hle.
  induction fuel as [|fuel IH]; intros fuel' Hle total s log o Hrun Hstop.
  - simpl in Hrun. destruct (N.eqb_spec total (string_length buf)) as [Heq|Hne].
    + inversion Hrun; subst. by apply write_loop_exit.
    + inversion Hrun; subst. by destruct (Hstop total s).
  - destruct fuel' as [|fuel']; [lia|].
    destruct (N.eq_dec total (string_length buf)) as [Heq|Hne].
    { rewrite write_loop_exit in Hrun |- * by done. done. }
    rewrite write_loop_step in Hrun |- * by done. simpl in *.
    destruct (write_some s (unwritten_tail buf total)) as [n s'|ec s']; [|done].
    destruct (write_loop fuel buf (size_t_add total n) s') as [log' o'] eqn:Hrec.
    inversion Hrun; subst o log.
    by rewrite (IH fuel' ltac:(lia) _ _ _ _ Hrec Hstop).
Qed.

(** Against a stream that makes progress, as many iterations as there are
    unwritten bytes are enough for the loop to return. *)
Lemma write_loop_returns (buf : list byte) :
  fits_size_t buf → write_some_contract Sock → makes_progress Sock →
  ∀ (fuel : nat) (total : N) (s : Sock),
    total ≤ string_length buf →
    (N.to_nat (string_length buf - total) ≤ fuel)%nat →
    ∃ log s',
      write_loop fuel buf total s = (log, Returned (string_length buf) s').
Proof.
  intros Hfit Hlaw Hprog.
  induction fuel as [|fuel IH]; intros total s Hle Hfuel.
  - assert (Heq : total = string_length buf) by lia.
    exists [], s. rewrite write_loop_exit by done. by rewrite Heq.
  - destruct (N.eq_dec total (string_length buf)) as [Heq|Hne].
    { exists [], s. rewrite write_loop_exit by done. by rewrite Heq. }
    rewrite write_loop_step by done. simpl.
    pose proof (Hlaw s (unwritten_tail buf total)) as Hw.
    rewrite unwritten_tail_in_range in Hw |- * by done.
    pose proof (string_length_nat buf) as Hlen.
    destruct (Hprog s (drop (N.to_nat total) buf)) as (n & s' & Hsome & Hpos).
    { intros Hnil. apply (f_equal length) in Hnil. rewrite length_drop in Hnil.
      simpl in Hnil. lia. }
    rewrite Hsome in Hw |- *. destruct Hw as [Hn _]. rewrite length_drop in Hn.
    unfold fits_size_t in Hfit.
    rewrite size_t_add_in_range by lia.
    destruct (IH (total + n) s') as (log & s'' & Hrec); [lia|lia|].
    rewrite Hrec. by eexists _, _.
Qed.

(** What a returning run has sent: the whole string, after what the socket
    had sent before. *)
Lemma write_loop_delivers (buf : list byte) :
  fits_size_t buf → write_some_contract Sock → makes_progress Sock →
  ∀ s : Sock, ∃ log s',
    (∀ fuel, (length buf ≤ fuel)%nat →
       write_loop fuel buf 0 s = (log, Returned (string_length buf) s'))
    ∧ sent s' = sent s ++ buf.
Proof.
  intros Hfit Hlaw Hprog s.
  pose proof (string_length_nat buf) as Hlen.
  destruct (write_loop_returns buf Hfit Hlaw Hprog (length buf) 0 s)
    as (log & s' & Hrun); [lia|lia|].
  exists log, s'. split.
  - intros fuel Hfuel. by eapply write_loop_fuel_mono.
  - assert (Hzero : 0 ≤ string_length buf) by lia.
    destruct (write_loop_invariant buf Hfit Hlaw _ _ _ _ _ Hzero Hrun)
      as (_ & _ & _ & Hsent & _).
    simpl in Hsent. rewrite Hsent, N.sub_0_r, drop_0. f_equal.
    apply take_ge. lia.
Qed.

End WriteLoop.

(** ** Composite buffers *)

Section CompositeBuffers.
Import Ch06Recipe01.

Lemma fold_push_back {A : Type} (xs acc : list A) :
  fold_left push_back xs acc = acc ++ xs.
Proof.
  revert acc. induction xs as [|x xs IH]; intros acc; simpl.
  - by rewrite app_nil_r.
  - rewrite IH. unfold push_back. by rewrite <- app_assoc.
Qed.

Lemma sequenceOf_segments (segments : list simple_buffer) :
  sequenceOf segments = segments.
Proof. unfold sequenceOf. by rewrite fold_push_back. Qed.

Lemma buffer_size_from (buffers : list simple_buffer) (total : N) :
  fold_left (λ t b, t + buf_size b) buffers total = total + sum_of_sizes buffers.
Proof.
  revert total. induction buffers as [|b bs IH]; intros total; simpl.
  - unfold sum_of_sizes. simpl. lia.
  - rewrite IH. unfold sum_of_sizes. simpl. lia.
Qed.

Lemma buffer_size_sum (buffers : list simple_buffer) :
  buffer_size buffers = sum_of_sizes buffers.
Proof. unfold buffer_size. by rewrite buffer_size_from. Qed.

(** The bytes of a sequence whose segments lie within their memory are as
    many as its total length. *)
Lemma gathered_length (buffers : list simple_buffer) :
  Forall within_memory buffers →
  N.of_nat (length (gathered buffers)) = buffer_size buffers.
Proof.
  rewrite buffer_size_sum. unfold gathered, sum_of_sizes.
  induction 1 as [|b bs Hb _ IH]; simpl; [done|].
  rewrite length_app, Nat2N.inj_add, IH. f_equal.
  unfold segment_bytes, asio_buffer, within_memory in *.
  rewrite length_take. lia.
Qed.

End CompositeBuffers.

(** ** What the write loop guarantees *)

Section WriteClaims.
Context {Sock : Type} `{SyncWriteStream Sock}.
Import Ch02Recipe03 Ch06Recipe01.

(** C1. Against every stream whose [write_some] keeps its contract and
    writes at least one byte per attempt, the loop run over the composite
    buffer of segment lengths 6, 3 and 7 returns, for every budget of at
    least 16 iterations, with [total_bytes_written] equal to 16, the total
    length of the buffer, and the 16 bytes sent in their order: one call is
    enough, whatever the sizes of the single writes. *)
Theorem writeAll_composite_buffer_complete (s : Sock) :
  write_some_contract Sock → makes_progress Sock →
  map buf_size CompositeBuffersGatherOutput = [6; 3; 7]
  ∧ buffer_size CompositeBuffersGatherOutput = 16
  ∧ ∃ log s',
      (∀ fuel, (16 ≤ fuel)%nat →
         writeAll fuel s CompositeBuffersGatherOutput = (log, Returned 16 s'))
      ∧ sent s' = sent s ++ list_byte_of_string "Hello my friend!".
Proof.
  intros Hlaw Hprog. split; [done|]. split; [done|].
  unfold writeAll.
  destruct (write_loop_delivers (gathered CompositeBuffersGatherOutput))
    with (s := s) as (log & s' & Hrun & Hsent); [by vm_compute|done|done|].
  exists log, s'. split; [|exact Hsent].
  intros fuel Hfuel. apply Hrun. exact Hfuel.
Qed.


(** C9. On a buffer of length zero the loop condition fails at once: for
    every budget of iterations, zero included, the run makes no attempt and
    has returned with zero bytes written and the socket as it was. The same
    holds for the empty composite buffer. *)
Theorem write_loop_empty_buffer (fuel : nat) (s : Sock) :
  write_loop fuel [] 0 s = ([], Returned 0 s)
  ∧ writeAll fuel s (sequenceOf []) = ([], Returned 0 s).
Proof. split; by apply write_loop_exit. Qed.

(** C2, as the code has it. When the first attempt on a buffer that is not
    empty writes no byte and reports no error, the loop does not stop
    there: after that one iteration it is still running with
    [total_bytes_written] equal to 0, and it goes on exactly as a fresh run
    on the whole buffer from the state the attempt left the socket in. On a
    stream whose attempts all write no byte, no budget of iterations brings
    the loop to an end. *)
Theorem write_loop_zero_byte_attempt (buf : list byte) (s s' : Sock) :
  buf ≠ [] →
  write_some s (unwritten_tail buf 0) = Wrote 0 s' →
  let first := {| at_offset := 0; at_data := unwritten_tail buf 0 |} in
  write_loop 1 buf 0 s = ([first], StillRunning 0 s')
  ∧ (∀ fuel, write_loop (S fuel) buf 0 s =
       (first :: (write_loop fuel buf 0 s').1, (write_loop fuel buf 0 s').2))
  ∧ ((∀ (s1 : Sock) d, ∃ s2, write_some s1 d = Wrote 0 s2) →
     ∀ fuel, ∃ s2, (write_loop fuel buf 0 s).2 = StillRunning 0 s2).
Proof.
  intros Hbuf Hfirst first.
  assert (Hne : 0 ≠ string_length buf).
  { unfold string_length. destruct buf; [done|simpl; lia]. }
  assert (Hstep : ∀ fuel, write_loop (S fuel) buf 0 s =
            (first :: (write_loop fuel buf 0 s').1, (write_loop fuel buf 0 s').2)).
  { intros fuel. rewrite write_loop_step by done. simpl. rewrite Hfirst.
    change (size_t_add 0 0) with 0. by destruct (write_loop fuel buf 0 s'). }
  split; [|split; [exact Hstep|]].
  - by rewrite Hstep, write_loop_no_fuel.
  - intros Hall fuel. clear Hfirst Hstep first s'. revert s.
    induction fuel as [|fuel IH]; intros s.
    + exists s. by rewrite write_loop_no_fuel.
    + rewrite write_loop_step by done. simpl.
      destruct (Hall s (unwritten_tail buf 0)) as [s2 ->].
      change (size_t_add 0 0) with 0.
      destruct (IH s2) as [s3 Hs3]. exists s3.
      by destruct (write_loop fuel buf 0 s2).
Qed.

(** The loop of [asio::write] goes through the states of the manual loop,
    attempt by attempt, on every string that one attempt may take whole. *)
Lemma asio_write_loop_simulates (buf : list byte) :
  string_length buf ≤ default_max_transfer_size → write_some_contract Sock →
  ∀ (fuel : nat) (total : N) (s : Sock),
    total ≤ string_length buf →
    asio_write_loop fuel (drop (N.to_nat total) buf) total s
    = (write_loop fuel buf total s).2.
Proof.
  intros Hmax Hlaw.
  assert (Hfit : fits_size_t buf).
  { unfold fits_size_t. eapply N.le_lt_trans; [exact Hmax|by vm_compute]. }
  pose proof (string_length_nat buf) as Hlen.
  induction fuel as [|fuel IH]; intros total s Hle.
  - simpl. destruct (N.eqb_spec total (string_length buf)) as [Heq|Hne].
    + rewrite drop_ge by lia. done.
    + destruct (drop (N.to_nat total) buf) eqn:Hd; [|done].
      apply (f_equal length) in Hd. rewrite length_drop in Hd. simpl in Hd. lia.
  - destruct (N.eq_dec total (string_length buf)) as [Heq|Hne].
    { rewrite write_loop_exit by done. rewrite drop_ge by lia. done. }
    rewrite write_loop_step by done. simpl.
    rewrite unwritten_tail_in_range by done.
    pose proof (Hlaw s (drop (N.to_nat total) buf)) as Hw.
    destruct (drop (N.to_nat total) buf) as [|b tl] eqn:Hd.
    { apply (f_equal length) in Hd. rewrite length_drop in Hd. simpl in Hd. lia. }
    assert (Htake : asio_buffer (b :: tl) default_max_transfer_size = b :: tl).
    { unfold asio_buffer. apply take_ge. rewrite <- Hd, length_drop. lia. }
    rewrite Htake.
    destruct (write_some s (b :: tl)) as [n s'|ec s']; [|done].
    destruct Hw as [Hn _]. rewrite <- Hd, length_drop in Hn.
    rewrite <- Hd, drop_drop.
    unfold fits_size_t in Hfit.
    rewrite size_t_add_in_range by lia.
    replace (N.to_nat total + N.to_nat n)%nat with (N.to_nat (total + n)) by lia.
    rewrite IH by lia.
    by destruct (write_loop fuel buf (total + n) s').
Qed.

(** C10. Against every stream whose [write_some] keeps its contract and
    writes at least one byte per attempt, [writeToSocket] and
    [writeToSocketEnhanced] do the same: for every budget of at least 5
    iterations both have returned, with the socket in the same state, and
    what each has sent are the 5 bytes of "Hello", in their order, after
    what the socket had sent before. *)
Theorem writeToSocket_equiv_enhanced (s : Sock) :
  write_some_contract Sock → makes_progress Sock →
  ∃ s',
    (∀ fuel, (5 ≤ fuel)%nat →
       (writeToSocket fuel s).2 = Returned 5 s'
       ∧ writeToSocketEnhanced fuel s = Returned 5 s')
    ∧ sent s' = sent s ++ list_byte_of_string "Hello"
    ∧ length (list_byte_of_string "Hello") = 5%nat.
Proof.
  intros Hlaw Hprog.
  destruct (write_loop_delivers Hello) with (s := s)
    as (log & s' & Hrun & Hsent); [by vm_compute|done|done|].
  exists s'. split; [|split; [exact Hsent|done]].
  intros fuel Hfuel.
  assert (Hmanual : (writeToSocket fuel s).2 = Returned 5 s').
  { unfold writeToSocket. by rewrite (Hrun fuel Hfuel). }
  split; [exact Hmanual|].
  unfold writeToSocketEnhanced, asio_write.
  rewrite <- Hmanual. unfold writeToSocket.
  rewrite <- (asio_write_loop_simulates Hello); [done|by vm_compute|done|by vm_compute].
Qed.

End WriteClaims.

(** ** Composite buffers and endpoints *)

Section BufferClaims.
Import Ch06Recipe01.

(** C4. The total length of a buffer sequence built from a list of
    segments is the sum of the lengths of the segments; the two composite
    buffers of the recipe are the sequences of their three segments, of
    lengths 6, 3 and 7, and have total length 16; the sequence of no
    segment is a buffer sequence too, of total length 0 and with no byte
    to transfer. *)
Theorem sequenceOf_total_length :
  (∀ segments, buffer_size (sequenceOf segments) = sum_of_sizes segments)
  ∧ CompositeBuffersGatherOutput
    = sequenceOf [const_buffer (literal "Hello ") 6;
                  const_buffer (literal "my ") 3;
                  const_buffer (literal "friend!") 7]
  ∧ map buf_size CompositeBuffersGatherOutput = [6; 3; 7]
  ∧ buffer_size CompositeBuffersGatherOutput = 16
  ∧ (∀ part1 part2 part3,
       map buf_size (CompositeBuffersScatterInput part1 part2 part3) = [6; 3; 7]
       ∧ buffer_size (CompositeBuffersScatterInput part1 part2 part3) = 16)
  ∧ buffer_size (sequenceOf []) = 0
  ∧ gathered (sequenceOf []) = [].
Proof.
  split_and!; try done.
  intros segments. by rewrite sequenceOf_segments, buffer_size_sum.
Qed.

End BufferClaims.

Section EndpointClaims.
Import Ch01Recipe01.


End EndpointClaims.

(** ** Resolving with a numeric service *)

Section ResolverClaims.
Import Ch01Recipe04.

Lemma digits_value_not_digit (base : N) (digit : ascii → option N) (s : text) :
  Exists (λ c, digit c = None) s → ∀ acc, digits_value base digit acc s = None.
Proof.
  induction 1 as [c rest Hc|c rest _ IH]; intros acc; simpl.
  - by rewrite Hc.
  - destruct (digit c); [apply IH|done].
Qed.

(** C7. With the flag [numeric_service], the service of a query is read as
    a port number and as nothing else. Where "localhost" is a host the
    system knows, the query for "localhost" and "8080" succeeds with one
    endpoint per address of the host, at least one, each with port 8080;
    and the query for any host with a service that has a character other
    than a decimal digit, such as "http", fails with an error code and no
    endpoint, whatever port the system knows for that service. *)
Theorem resolve_numeric_service_only (ns : name_service) :
  hosts ns "localhost" ≠ [] →
  (∃ eps,
     resolve ns {| host_name := "localhost"; service_name := "8080";
                   numeric_service := true |} = (eps, no_error)
     ∧ eps ≠ [] ∧ Forall (λ e, ep_port e = 8080) eps
     ∧ map ep_address eps = hosts ns "localhost")
  ∧ (∀ host service,
       Exists (λ c, decimal_digit c = None) (list_ascii_of_string service) →
       resolve ns {| host_name := host; service_name := service;
                     numeric_service := true |} = ([], service_not_found))
  ∧ resolve ns {| host_name := "localhost"; service_name := "http";
                  numeric_service := true |} = ([], service_not_found)
  ∧ service_not_found ≠ no_error.
Proof.
  intros Hhost.
  assert (Hfail : ∀ host service,
       Exists (λ c, decimal_digit c = None) (list_ascii_of_string service) →
       resolve ns {| host_name := host; service_name := service;
                     numeric_service := true |} = ([], service_not_found)).
  { intros host service Hex. unfold resolve, parse_port. simpl.
    rewrite (digits_value_not_digit _ _ _ Hex).
    by destruct (list_ascii_of_string service). }
  split_and!; [|exact Hfail| |done].
  - assert (Hport : parse_port (list_ascii_of_string "8080") = Some 8080)
      by (by vm_compute).
    unfold resolve. cbn [service_name host_name numeric_service]. rewrite Hport.
    destruct (hosts ns "localhost") as [|a addrs] eqn:Ha; [done|].
    eexists. split; [reflexivity|]. split; [done|]. split.
    + rewrite Forall_fmap. by apply Forall_true.
    + rewrite <- list_fmap_compose. apply list_fmap_id.
  - apply Hfail. apply Exists_cons_hd. by vm_compute.
Qed.

End ResolverClaims.

(** ** Connecting and the descriptors of the process *)

Section ConnectorClaims.
Import Ch01Recipe06.

Lemma with_socket_closes_fresh (fds : gset nat) :
  ({[fresh fds]} ∪ fds) ∖ {[fresh fds]} = fds.
Proof.
  pose proof (is_fresh fds) as Hfresh.
  apply set_eq. intros fd. rewrite elem_of_difference, elem_of_union, elem_of_singleton.
  split; [by intros [[->|?] ?]|]. intros Hin. split; [by right|by intros ->].
Qed.

(** Leaving the block of a socket gives back the descriptor the socket
    took: the process holds the descriptors it held before. *)
Lemma with_socket_releases {A : Type} (net : network) (block : nat → M A)
    (k k' : kernel) (r : result A) :
  (∀ sock k1 r1 k2, block sock k1 = (r1, k2) → open_fds k2 = open_fds k1) →
  with_socket net block k = (r, k') →
  open_fds k' = open_fds k.
Proof.
  intros Hblock. unfold with_socket, socket_open.
  destruct (size (open_fds k) <? fd_limit net)%nat; [|by intros [= _ <-]].
  destruct (block _ _) as [r1 k2] eqn:Hb. simpl. intros [= _ <-]. simpl.
  rewrite (Hblock _ _ _ _ Hb). simpl.
  apply with_socket_closes_fresh.
Qed.

(** C8. When the network refuses the connection to the endpoint, [main]
    returns the error code of the failure, which is not 0, and the process
    holds exactly the descriptors it held before the call: the descriptor
    the socket took, if the socket could be opened at all, was not in use
    before and has been closed again, after the attempt to connect and
    before [main] returns. *)
Theorem connect_failure_leaves_no_socket
    (parse : string → address * error_code) (net : network)
    (raw_ip_address : string) (port : N) (ip_address : address) (k : kernel) :
  parse raw_ip_address = (ip_address, no_error) →
  let ep := tcp_endpoint ip_address (unsigned_short port) in
  connect_result net ep ≠ no_error →
  ∃ code k',
    main parse net raw_ip_address port k = (Normal code, k')
    ∧ code ≠ 0%Z
    ∧ open_fds k' = open_fds k
    ∧ if (size (open_fds k) <? fd_limit net)%nat
      then (∃ fd, (fd ∉ open_fds k)
                  ∧ code = connect_result net ep
                  ∧ syscalls k' =
                      (syscalls k ++
                         [sys_socket fd; sys_connect fd ep code; sys_close fd]))
      else code = too_many_files ∧ syscalls k' = syscalls k.
Proof.
  intros Hparse ep Hrefused.
  unfold main, try_catch, from_string_or_throw. rewrite Hparse. simpl.
  unfold mbind, M_bind, mret, M_ret, with_socket, socket_open. simpl.
  fold ep.
  destruct (size (open_fds k) <? fd_limit net)%nat eqn:Hlimit; simpl.
  - unfold socket_connect. fold ep.
    destruct (Z.eqb_spec (connect_result net ep) 0) as [Hz|Hnz]; [done|]. simpl.
    eexists _, _. split; [reflexivity|]. split; [done|]. simpl.
    pose proof (is_fresh (open_fds k)) as Hfresh.
    split; [by eapply (with_socket_closes_fresh (open_fds k))|].
    exists (fresh (open_fds k)). split; [done|]. split; [done|].
    by rewrite <- !app_assoc.
  - eexists _, _. split; [reflexivity|]. by split.
Qed.

End ConnectorClaims.

(** ** Textual addresses: the parser accepts the conforming texts only *)

Section TextualAddresses.

Lemma decimal_digit_inv (c : ascii) (d : N) :
  decimal_digit c = Some d → d < 10 ∧ c = digit_char d ∧ c ≠ dot ∧ c ≠ colon.
Proof.
  unfold decimal_digit, digit_char.
  destruct (_ && _) eqn:Hrange; [|done]. intros [= <-].
  apply andb_true_iff in Hrange as [Hlo%N.leb_le Hhi%N.leb_le].
  split; [lia|]. split.
  - replace (48 + (N_of_ascii c - 48)) with (N_of_ascii c) by lia.
    by rewrite ascii_N_embedding.
  - split; intros ->; vm_compute in Hlo, Hhi; by (apply Hlo || apply Hhi).
Qed.

Lemma decimal_digit_char (d : N) :
  d < 10 → decimal_digit (digit_char d) = Some d.
Proof.
  intros Hd. unfold decimal_digit, digit_char.
  rewrite N_ascii_embedding by lia.
  replace (48 <=? 48 + d) with true by (symmetry; apply N.leb_le; lia).
  replace (48 + d <=? 57) with true by (symmetry; apply N.leb_le; lia).
  simpl. f_equal. lia.
Qed.

Lemma hex_digit_inv (c : ascii) : is_Some (hex_digit c) → c ≠ colon.
Proof. intros [d Hd] ->. by vm_compute in Hd. Qed.

Lemma hex_digit_bound (c : ascii) (d : N) : hex_digit c = Some d → d < 16.
Proof.
  unfold hex_digit. cbv zeta. generalize (N_of_ascii c). intros n.
  destruct (N.leb_spec 48 n), (N.leb_spec n 57); simpl; try (intros [= <-]; lia).
  all: destruct (N.leb_spec 65 n), (N.leb_spec n 70); simpl; try (intros [= <-]; lia).
  all: destruct (N.leb_spec 97 n), (N.leb_spec n 102); simpl; try (intros [= <-]; lia).
  all: done.
Qed.

(** Splitting and joining. *)
Lemma split_on_not_nil (sep : ascii) (s : text) : split_on sep s ≠ [].
Proof.
  destruct s as [|c rest]; simpl; [done|].
  destruct (Ascii.eqb c sep); [done|]. by destruct (split_on sep rest).
Qed.

Lemma join_split_on (sep : ascii) (s : text) : join sep (split_on sep s) = s.
Proof.
  induction s as [|c rest IH]; simpl; [done|].
  pose proof (split_on_not_nil sep rest) as Hne.
  destruct (Ascii.eqb_spec c sep) as [->|Hc].
  - simpl. destruct (split_on sep rest) as [|f fs]; [done|]. by rewrite IH.
  - destruct (split_on sep rest) as [|f fs]; [done|].
    simpl in *. destruct fs; simpl in *; by rewrite <- IH.
Qed.

Lemma split_on_free (sep : ascii) (f : text) :
  sep ∉ f → split_on sep f = [f].
Proof.
  induction f as [|c rest IH]; intros Hfree; simpl; [done|].
  apply not_elem_of_cons in Hfree as [Hc Hrest].
  destruct (Ascii.eqb_spec c sep) as [->|_]; [done|]. by rewrite IH.
Qed.

Lemma split_on_app (sep : ascii) (f s : text) :
  sep ∉ f → split_on sep (f ++ sep :: s) = f :: split_on sep s.
Proof.
  induction f as [|c rest IH]; intros Hfree; simpl.
  - by rewrite Ascii.eqb_refl.
  - apply not_elem_of_cons in Hfree as [Hc Hrest].
    destruct (Ascii.eqb_spec c sep) as [->|_]; [done|]. by rewrite IH.
Qed.

Lemma split_on_join (sep : ascii) (fields : list text) :
  fields ≠ [] → Forall (λ f, sep ∉ f) fields →
  split_on sep (join sep fields) = fields.
Proof.
  intros Hne Hfree. induction Hfree as [|f fs Hf Hfs IH]; [done|].
  destruct fs as [|g gs]; simpl.
  - by apply split_on_free.
  - rewrite split_on_app by done. f_equal. by apply IH.
Qed.

(** The fields of a dotted-decimal text. *)
Lemma digits_value_ge (base : N) (digit : ascii → option N) (s : text) :
  0 < base → ∀ acc n, digits_value base digit acc s = Some n →
  acc * base ^ N.of_nat (length s) ≤ n.
Proof.
  intros Hbase. induction s as [|c rest IH]; intros acc n; simpl.
  - intros [= <-]. lia.
  - destruct (digit c) as [d|]; [|done]. intros Hn%IH.
    rewrite Nat2N.inj_succ, N.pow_succ_r'. nia.
Qed.

Lemma decimal_text_1 (d1 : N) : d1 < 10 → decimal_text d1 = [digit_char d1].
Proof.
  intros H1. unfold decimal_text.
  by replace (d1 <? 10) with true by (symmetry; apply N.ltb_lt; lia).
Qed.

Lemma decimal_text_2 (d1 d2 : N) :
  0 < d1 < 10 → d2 < 10 →
  decimal_text (10 * d1 + d2) = [digit_char d1; digit_char d2].
Proof.
  intros H1 H2. unfold decimal_text.
  replace (10 * d1 + d2 <? 10) with false by (symmetry; apply N.ltb_ge; lia).
  replace (10 * d1 + d2 <? 100) with true by (symmetry; apply N.ltb_lt; lia).
  replace ((10 * d1 + d2) / 10) with d1 by (apply (N.div_unique _ 10 _ d2); lia).
  by replace ((10 * d1 + d2) mod 10) with d2 by (apply (N.mod_unique _ 10 d1); lia).
Qed.

Lemma decimal_text_3 (d1 d2 d3 : N) :
  0 < d1 < 10 → d2 < 10 → d3 < 10 →
  decimal_text (100 * d1 + (10 * d2 + d3))
  = [digit_char d1; digit_char d2; digit_char d3].
Proof.
  intros H1 H2 H3. unfold decimal_text.
  replace (_ <? 10) with false by (symmetry; apply N.ltb_ge; lia).
  replace (_ <? 100) with false by (symmetry; apply N.ltb_ge; lia).
  replace ((100 * d1 + (10 * d2 + d3)) / 100) with d1
    by (apply (N.div_unique _ 100 _ (10 * d2 + d3)); lia).
  replace ((100 * d1 + (10 * d2 + d3)) / 10) with (10 * d1 + d2)
    by (apply (N.div_unique _ 10 _ d3); lia).
  replace ((10 * d1 + d2) mod 10) with d2 by (apply (N.mod_unique _ 10 d1); lia).
  by replace ((100 * d1 + (10 * d2 + d3)) mod 10) with d3
    by (apply (N.mod_unique _ 10 (10 * d1 + d2)); lia).
Qed.

Lemma parse_octet_decimal_text (f : text) (n : N) :
  parse_octet f = Some n → n < 256 ∧ f = decimal_text n.
Proof.
  unfold parse_octet. destruct f as [|c1 rest]; [done|].
  destruct (Ascii.eqb c1 "0" && negb (bool_decide (rest = []))) eqn:Hlead; [done|].
  destruct (digits_value 10 decimal_digit 0 (c1 :: rest)) as [m|] eqn:Hval; [|done].
  destruct (N.leb_spec m 255) as [Hm|]; [|done]. intros [= <-].
  split; [lia|].
  cbn [digits_value] in Hval.
  destruct (decimal_digit c1) as [d1|] eqn:Hd1; [|done].
  apply decimal_digit_inv in Hd1 as (Hb1 & -> & _).
  destruct rest as [|c2 rest].
  { cbn [digits_value] in Hval. injection Hval as <-.
    replace (10 * 0 + d1) with d1 by lia. by rewrite decimal_text_1. }
  assert (Hnz : d1 ≠ 0).
  { intros ->. by vm_compute in Hlead. }
  cbn [digits_value] in Hval.
  destruct (decimal_digit c2) as [d2|] eqn:Hd2; [|done].
  apply decimal_digit_inv in Hd2 as (Hb2 & -> & _).
  destruct rest as [|c3 rest].
  { cbn [digits_value] in Hval. injection Hval as <-.
    replace (10 * (10 * 0 + d1) + d2) with (10 * d1 + d2) by lia.
    rewrite decimal_text_2; [done|lia|lia]. }
  cbn [digits_value] in Hval.
  destruct (decimal_digit c3) as [d3|] eqn:Hd3; [|done].
  apply decimal_digit_inv in Hd3 as (Hb3 & -> & _).
  destruct rest as [|c4 rest].
  { cbn [digits_value] in Hval. injection Hval as <-.
    replace (10 * (10 * (10 * 0 + d1) + d2) + d3)
      with (100 * d1 + (10 * d2 + d3)) by lia.
    rewrite decimal_text_3; [done|lia|lia|lia]. }
  apply digits_value_ge in Hval; [|lia]. exfalso.
  simpl length in Hval. rewrite Nat2N.inj_succ, N.pow_succ_r' in Hval.
  assert (1 ≤ 10 ^ N.of_nat (length rest))
    by (apply N.neq_0_le_1, N.pow_nonzero; lia).
  nia.
Qed.

Lemma decimal_text_parse_octet (n : N) :
  n < 256 → parse_octet (decimal_text n) = Some n ∧ (dot ∉ decimal_text n).
Proof.
  intros Hn.
  assert (Hall : forallb
            (λ k, bool_decide
                    (parse_octet (decimal_text (N.of_nat k)) = Some (N.of_nat k)
                     ∧ dot ∉ decimal_text (N.of_nat k)))
            (seq 0 256) = true) by (by vm_compute).
  rewrite forallb_forall in Hall.
  specialize (Hall (N.to_nat n)). rewrite N2Nat.id in Hall.
  eapply bool_decide_eq_true_1, Hall, in_seq. lia.
Qed.

(** Dotted-decimal texts. *)
Lemma mapM_parse_octet (fields : list text) (bs : list N) :
  mapM parse_octet fields = Some bs →
  Forall (λ b, b < 256) bs ∧ fields = map decimal_text bs.
Proof.
  intros Hall%mapM_Some_1.
  induction Hall as [|f b fs bs' Hf _ [IH1 IH2]]; [done|].
  apply parse_octet_decimal_text in Hf as [Hb ->].
  split; [by constructor|]. simpl. by rewrite IH2.
Qed.

Lemma mapM_decimal_text (bs : list N) :
  Forall (λ b, b < 256) bs →
  mapM parse_octet (map decimal_text bs) = Some bs
  ∧ Forall (λ f, dot ∉ f) (map decimal_text bs).
Proof.
  intros Hbs. split.
  - apply mapM_Some_2. apply Forall2_fmap_l, Forall_Forall2_diag.
    eapply Forall_impl; [exact Hbs|]. intros b Hb. by apply decimal_text_parse_octet.
  - apply Forall_fmap. eapply Forall_impl; [exact Hbs|].
    intros b Hb. by apply decimal_text_parse_octet.
Qed.

Lemma parse_v4_dotted_decimal (s : text) (bs : list N) :
  parse_v4 s = Some bs →
  length bs = 4%nat ∧ Forall (λ b, b < 256) bs ∧ s = join dot (map decimal_text bs).
Proof.
  unfold parse_v4.
  destruct (mapM parse_octet (split_on dot s)) as [bs'|] eqn:Hfields; [|done].
  apply mapM_parse_octet in Hfields as [Hbs Hs].
  destruct bs' as [|? [|? [|? [|? [|]]]]]; try done. intros [= <-].
  split; [done|]. split; [done|]. by rewrite <- Hs, join_split_on.
Qed.

Lemma dotted_decimal_parse_v4 (s : text) :
  dotted_decimal s → ∃ bs, parse_v4 s = Some bs.
Proof.
  intros (bs & Hlen & Hbs & ->). exists bs.
  destruct (mapM_decimal_text bs Hbs) as [Hparse Hdots].
  unfold parse_v4. rewrite split_on_join; [|by destruct bs|done].
  rewrite Hparse.
  by destruct bs as [|? [|? [|? [|? [|]]]]].
Qed.

(** The groups of a colon-hex text. *)
Lemma digits_value_is_Some (base : N) (digit : ascii → option N) (s : text) :
  ∀ acc, is_Some (digits_value base digit acc s) ↔ Forall (λ c, is_Some (digit c)) s.
Proof.
  induction s as [|c rest IH]; intros acc; simpl.
  - split; [by constructor|by eexists].
  - rewrite Forall_cons. destruct (digit c) as [d|].
    + rewrite IH. split; [by split; [eexists|]|by intros [_ ?]].
    + split; [by intros [? ?]|by intros [[? ?] _]].
Qed.

Lemma digits_value_lt (s : text) :
  ∀ acc n, digits_value 16 hex_digit acc s = Some n →
  n < (acc + 1) * 16 ^ N.of_nat (length s).
Proof.
  induction s as [|c rest IH]; intros acc n; simpl.
  - intros [= <-]. lia.
  - destruct (hex_digit c) as [d|] eqn:Hd; [|done]. intros Hn%IH.
    apply hex_digit_bound in Hd.
    rewrite Nat2N.inj_succ, N.pow_succ_r'. nia.
Qed.

Lemma parse_group_hex_group (f : text) :
  is_Some (parse_group f) ↔ hex_group f.
Proof.
  unfold parse_group, hex_group. destruct f as [|c rest].
  - split; [by intros [? ?]|]. simpl. lia.
  - destruct (Nat.leb_spec (length (c :: rest)) 4) as [Hle|Hgt].
    + rewrite digits_value_is_Some. simpl in *. split; [intros ?; split; [lia|done]|by intros [_ ?]].
    + split; [by intros [? ?]|]. simpl in *. lia.
Qed.

Lemma parse_group_bound (f : text) (g : N) : parse_group f = Some g → g < 65536.
Proof.
  unfold parse_group. destruct f as [|c rest]; [done|].
  destruct (Nat.leb_spec (length (c :: rest)) 4) as [Hle|Hgt]; [|done].
  intros Hg%digits_value_lt.
  assert (16 ^ N.of_nat (length (c :: rest)) ≤ 16 ^ 4) by (apply N.pow_le_mono_r; lia).
  change (16 ^ 4) with 65536 in *. lia.
Qed.

Lemma hex_group_no_colon (f : text) : hex_group f → (colon ∉ f) ∧ f ≠ [].
Proof.
  intros [Hlen Hhex]. split.
  - intros Hin. rewrite Forall_forall in Hhex.
    exact (hex_digit_inv colon (Hhex colon Hin) eq_refl).
  - intros ->. simpl in Hlen. lia.
Qed.

Lemma mapM_parse_group (fields : list text) :
  (∀ gs, mapM parse_group fields = Some gs →
     Forall hex_group fields ∧ length gs = length fields ∧ Forall (λ g, g < 65536) gs)
  ∧ (Forall hex_group fields → is_Some (mapM parse_group fields)).
Proof.
  split.
  - intros gs Hall%mapM_Some_1.
    induction Hall as [|f g fs gs' Hf _ (IH1 & IH2 & IH3)]; [done|].
    split_and!.
    + constructor; [|done]. apply parse_group_hex_group. by eexists.
    + simpl. by rewrite IH2.
    + constructor; [|done]. by eapply parse_group_bound.
  - intros Hall. apply mapM_is_Some. eapply Forall_impl; [exact Hall|].
    intros f. apply parse_group_hex_group.
Qed.

(** The first "::" of a text. *)
Lemma split_double_colon_cons (c c' : ascii) (t : text) :
  split_double_colon (c :: c' :: t) =
    if Ascii.eqb c colon && Ascii.eqb c' colon then Some ([], t)
    else before [c] <$> split_double_colon (c' :: t).
Proof.
  change (split_double_colon (c :: c' :: t)) with
    (if Ascii.eqb c colon && Ascii.eqb c' colon then Some ([], t)
     else match split_double_colon (c' :: t) with
          | Some (p, q) => Some (c :: p, q)
          | None => None
          end).
  destruct (_ && _); [done|].
  by destruct (split_double_colon (c' :: t)) as [[p q]|].
Qed.

Lemma split_double_colon_Some (s p q : text) :
  split_double_colon s = Some (p, q) → s = p ++ colon :: colon :: q.
Proof.
  revert p. induction s as [|c rest IH]; intros p; [done|].
  destruct rest as [|c' rest']; [done|].
  rewrite split_double_colon_cons.
  destruct (Ascii.eqb_spec c colon) as [->|Hc];
    [destruct (Ascii.eqb_spec c' colon) as [->|Hc']|]; cbn [andb].
  - by intros [= <- <-].
  - destruct (split_double_colon (c' :: rest')) as [[p' q']|] eqn:Hrec; [|done].
    intros [= <- <-]. cbn [app]. f_equal. by apply IH.
  - destruct (split_double_colon (c' :: rest')) as [[p' q']|] eqn:Hrec; [|done].
    intros [= <- <-]. cbn [app]. f_equal. by apply IH.
Qed.

Lemma split_double_colon_skip (c : ascii) (t : text) :
  (c ≠ colon ∨ ∀ c' t', t = c' :: t' → c' ≠ colon) →
  split_double_colon (c :: t) = before [c] <$> split_double_colon t.
Proof.
  intros Hskip. destruct t as [|c' t']; [done|].
  rewrite split_double_colon_cons.
  assert (Ascii.eqb c colon && Ascii.eqb c' colon = false) as ->; [|done].
  apply andb_false_iff. destruct Hskip as [Hc|Hc'].
  - left. by apply Ascii.eqb_neq.
  - right. by apply Ascii.eqb_neq, (Hc' c' t').
Qed.

Lemma before_before (p1 p2 : text) (o : option (text * text)) :
  before p1 <$> (before p2 <$> o) = before (p1 ++ p2) <$> o.
Proof. destruct o as [[p q]|]; [|done]. simpl. unfold before. simpl. by rewrite app_assoc. Qed.

Lemma split_double_colon_free (f t : text) :
  colon ∉ f → split_double_colon (f ++ t) = before f <$> split_double_colon t.
Proof.
  induction f as [|c rest IH]; intros Hfree; simpl app.
  - by destruct (split_double_colon t) as [[p q]|].
  - apply not_elem_of_cons in Hfree as [Hc Hrest].
    rewrite split_double_colon_skip by (by left).
    rewrite IH by done. by rewrite before_before.
Qed.

Lemma split_double_colon_join (groups : list text) (t : text) :
  Forall hex_group groups →
  split_double_colon (join colon groups ++ t) = before (join colon groups) <$> split_double_colon t.
Proof.
  intros Hgroups. induction Hgroups as [|f fs Hf Hfs IH].
  - simpl. by destruct (split_double_colon t) as [[p q]|].
  - destruct fs as [|g gs].
    + simpl. apply split_double_colon_free. by apply hex_group_no_colon.
    + assert (Hhead : ∀ c' t', join colon (g :: gs) ++ t = c' :: t' → c' ≠ colon).
      { intros c' t' Heq ->.
        apply Forall_cons in Hfs as [Hg _].
        apply hex_group_no_colon in Hg as [Hfree Hne].
        destruct g as [|g0 g']; [done|].
        destruct gs; simpl in Heq; injection Heq as -> _;
          by apply Hfree, list_elem_of_here. }
      change (join colon (f :: g :: gs)) with (f ++ colon :: join colon (g :: gs)).
      set (J := join colon (g :: gs)) in *.
      rewrite <- app_assoc, <- app_comm_cons.
      rewrite split_double_colon_free by (by apply hex_group_no_colon).
      rewrite split_double_colon_skip by (by right).
      rewrite IH, !before_before. by rewrite <- app_assoc.
Qed.

Lemma parse_groups_fields (p : text) (gs : list N) :
  parse_groups p = Some gs →
  ∃ fields, Forall hex_group fields ∧ length fields = length gs
            ∧ p = join colon fields ∧ Forall (λ g, g < 65536) gs.
Proof.
  unfold parse_groups. destruct p as [|c rest].
  - intros [= <-]. by exists [].
  - intros (Hhex & Hlen & Hbound)%mapM_parse_group.
    exists (split_on colon (c :: rest)). by rewrite join_split_on.
Qed.

Lemma parse_groups_join (fields : list text) :
  Forall hex_group fields →
  ∃ gs, parse_groups (join colon fields) = Some gs ∧ length gs = length fields.
Proof.
  intros Hhex. destruct fields as [|f fs]; [by exists []|].
  assert (Hfree : Forall (λ f, colon ∉ f) (f :: fs)).
  { eapply Forall_impl; [exact Hhex|]. intros g Hg. by apply hex_group_no_colon. }
  destruct (proj2 (mapM_parse_group (f :: fs)) Hhex) as [gs Hgs].
  exists gs. split; [|by apply (proj1 (mapM_parse_group (f :: fs)))].
  unfold parse_groups.
  destruct (join colon (f :: fs)) as [|c rest] eqn:Hjoin.
  - apply Forall_cons in Hhex as [[_ Hne]%hex_group_no_colon _].
    destruct f; [done|]. by destruct fs.
  - by rewrite <- Hjoin, split_on_join.
Qed.

Lemma parse_v6_colon_hex (s : text) (gs : list N) :
  parse_v6 s = Some gs →
  colon_hex s ∧ length gs = 8%nat ∧ Forall (λ g, g < 65536) gs.
Proof.
  unfold parse_v6.
  destruct (split_double_colon s) as [[p q]|] eqn:Hsplit.
  - apply split_double_colon_Some in Hsplit as ->.
    destruct (parse_groups p) as [pre|] eqn:Hpre; [|done].
    destruct (parse_groups q) as [post|] eqn:Hpost; [|done].
    destruct (Nat.leb_spec (length pre + length post) 7) as [Hle|]; [|done].
    intros [= <-].
    apply parse_groups_fields in Hpre as (fp & Hfp & Hlp & -> & Hbp).
    apply parse_groups_fields in Hpost as (fq & Hfq & Hlq & -> & Hbq).
    split_and!.
    + right. exists fp, fq. split_and!; [lia|done|done|done].
    + rewrite !length_app, length_replicate. lia.
    + rewrite !Forall_app. split_and!; [done| |done].
      apply Forall_replicate. lia.
  - destruct (mapM parse_group (split_on colon s)) as [gs'|] eqn:Hgroups; [|done].
    destruct (Nat.eqb_spec (length gs') 8) as [Hlen|]; [|done]. intros [= <-].
    apply mapM_parse_group in Hgroups as (Hhex & Hlen' & Hbound).
    split_and!; [|done|done].
    left. exists (split_on colon s). split_and!; [lia|done|by rewrite join_split_on].
Qed.

Lemma colon_hex_parse_v6 (s : text) : colon_hex s → is_Some (parse_v6 s).
Proof.
  unfold parse_v6. intros [(gs & Hlen & Hhex & ->)|(pre & post & Hlen & Hpre & Hpost & ->)].
  - rewrite <- (app_nil_r (join colon gs)) at 1.
    rewrite split_double_colon_join by done. simpl.
    rewrite split_on_join; [|by destruct gs|].
    + destruct (proj2 (mapM_parse_group gs) Hhex) as [vs Hvs]. rewrite Hvs.
      apply mapM_parse_group in Hvs as (_ & Hlv & _).
      rewrite Hlv, Hlen. by eexists.
    + eapply Forall_impl; [exact Hhex|]. intros g Hg. by apply hex_group_no_colon.
  - rewrite split_double_colon_join by done.
    change (split_double_colon (colon :: colon :: join colon post))
      with (Some ([] : text, join colon post)).
    simpl. unfold before. simpl. rewrite app_nil_r.
    destruct (parse_groups_join pre Hpre) as (vp & -> & Hlp).
    destruct (parse_groups_join post Hpost) as (vq & -> & Hlq).
    rewrite Hlp, Hlq.
    destruct (Nat.leb_spec (length pre + length post) 7) as [_|]; [by eexists|lia].
Qed.

(** What [from_string] accepts and what it yields. *)
Lemma from_string_conforming (str : string) :
  (from_string str).2 = no_error ↔ conforming str.
Proof.
  unfold from_string, conforming. cbv zeta. split.
  - destruct (parse_v6 _) as [gs|] eqn:H6.
    { intros _. right. by eapply parse_v6_colon_hex. }
    destruct (parse_v4 _) as [bs|] eqn:H4; [|done].
    intros _. left. exists bs. by apply parse_v4_dotted_decimal.
  - intros [Hv4|Hv6].
    + destruct (parse_v6 _); [done|].
      by destruct (dotted_decimal_parse_v4 _ Hv4) as [bs ->].
    + by destruct (colon_hex_parse_v6 _ Hv6) as [gs ->].
Qed.

Lemma from_string_failure (str : string) :
  (from_string str).2 ≠ no_error →
  from_string str = (address_default, invalid_argument).
Proof.
  unfold from_string. cbv zeta.
  destruct (parse_v6 _); [done|]. by destruct (parse_v4 _).
Qed.

Lemma flat_map_group_bytes (gs : list N) :
  Forall (λ g, g < 65536) gs →
  length (flat_map group_bytes gs) = (2 * length gs)%nat
  ∧ Forall (λ b, b < 256) (flat_map group_bytes gs).
Proof.
  induction 1 as [|g gs' Hg _ [IH1 IH2]]; simpl; [done|].
  split; [lia|]. repeat constructor; [|by apply N.mod_lt|done].
  apply N.Div0.div_lt_upper_bound. lia.
Qed.

Lemma from_string_whole (str : string) (a : address) :
  from_string str = (a, no_error) → whole_address a.
Proof.
  unfold from_string. cbv zeta.
  destruct (parse_v6 _) as [gs|] eqn:H6.
  { intros [= <-]. apply parse_v6_colon_hex in H6 as (_ & Hlen & Hbound).
    destruct (flat_map_group_bytes gs Hbound) as [Hl Hb]. simpl. split; [lia|done]. }
  destruct (parse_v4 _) as [bs|] eqn:H4; [|done].
  intros [= <-]. by apply parse_v4_dotted_decimal in H4 as (? & ? & _).
Qed.

End TextualAddresses.

(** ** Parsing addresses *)

Section AddressClaims.
Import Ch01Recipe01.

(** C6. For every text that is neither a dotted-decimal nor a colon-hex
    address, parsing fails with the error code [invalid_argument], and
    [creatingEndpointClient] leaves with that code, which is not 0, without
    an address or an endpoint. Nothing is thrown: the failure is the value
    returned. And no address comes out half-parsed: whenever
    [creatingEndpointClient] reaches its endpoint, the text was a
    conforming one and the address has all the bytes of its version. *)
Theorem malformed_address_is_rejected (raw_ip_address : string) (port : N) :
  ¬ conforming raw_ip_address →
  from_string raw_ip_address = (address_default, invalid_argument)
  ∧ creatingEndpointClient from_string raw_ip_address port = returns invalid_argument
  ∧ invalid_argument ≠ no_error
  ∧ (∀ str p ep,
       creatingEndpointClient from_string str p = falls_off_end ep →
       conforming str ∧ whole_address (ep_address ep)).
Proof.
  intros Hbad.
  assert (Hfail : from_string raw_ip_address = (address_default, invalid_argument)).
  { apply from_string_failure. by rewrite from_string_conforming. }
  split_and!; [done| |done|].
  - unfold creatingEndpointClient. by rewrite Hfail.
  - intros str p ep. unfold creatingEndpointClient.
    destruct (from_string str) as [a ec] eqn:Hparse.
    destruct (Z.eqb_spec ec 0) as [->|Hne]; [|done]. simpl. intros [= <-]. split.
    + apply from_string_conforming. by rewrite Hparse.
    + by eapply from_string_whole.
Qed.

End AddressClaims.

(** * The properties at concrete inputs *)

Section Instances.
Import Ch02Recipe03 Ch06Recipe01.

(** The run of the loop over the composite buffer against the socket that
    accepts 2 bytes, then 1, then the rest: three attempts, at the offsets
    0, 2 and 3. *)
Example writeAll_two_one_rest :
  writeAll 16 two_one_rest CompositeBuffersGatherOutput
  = ([ {| at_offset := 0; at_data := list_byte_of_string "Hello my friend!" |};
       {| at_offset := 2; at_data := list_byte_of_string "llo my friend!" |};
       {| at_offset := 3; at_data := list_byte_of_string "lo my friend!" |} ],
     Returned 16 {| chunks := [];
                    trickle_out := list_byte_of_string "Hello my friend!" |}).
Proof. by vm_compute. Qed.

Lemma writeAll_composite_buffer_complete_witness :
  write_some_contract trickle ∧ makes_progress trickle
  ∧ (map buf_size CompositeBuffersGatherOutput = [6; 3; 7]
     ∧ buffer_size CompositeBuffersGatherOutput = 16
     ∧ ∃ log s',
         (∀ fuel, (16 ≤ fuel)%nat →
            writeAll fuel two_one_rest CompositeBuffersGatherOutput
            = (log, Returned 16 s'))
         ∧ sent s' = sent two_one_rest ++ list_byte_of_string "Hello my friend!").
Proof.
  split; [exact trickle_contract|]. split; [exact trickle_progress|].
  exact (writeAll_composite_buffer_complete two_one_rest
           trickle_contract trickle_progress).
Defined.

(** C2, read as a stall ending the loop, is not what the loop does: against the
    socket whose first attempt writes nothing and reports no error, the
    run does not end in an error after that attempt; it goes on and
    returns with all 5 bytes written. *)
Lemma stalled_attempt_is_no_error :
  ¬ (∀ s s' : scripted,
       write_some s (unwritten_tail Hello 0) = Wrote 0 s' →
       ∃ ec, ∀ fuel, (1 ≤ fuel)%nat →
         (writeToSocket fuel s).2 = Threw ec 0 s').
Proof.
  intros Hstall.
  destruct (Hstall stalls_once {| script := []; wire := [] |} eq_refl) as [ec Hec].
  specialize (Hec 2%nat ltac:(lia)). by vm_compute in Hec.
Qed.

Example writeToSocket_stalls_once :
  (writeToSocket 1 stalls_once).2 = StillRunning 0 {| script := []; wire := [] |}
  ∧ (writeToSocket 2 stalls_once).2 = Returned 5 {| script := []; wire := Hello |}.
Proof. by vm_compute. Qed.

Lemma write_loop_zero_byte_attempt_witness :
  Hello ≠ []
  ∧ write_some never_writes (unwritten_tail Hello 0) = Wrote 0 never_writes
  ∧ (let first := {| at_offset := 0; at_data := unwritten_tail Hello 0 |} in
     write_loop 1 Hello 0 never_writes = ([first], StillRunning 0 never_writes)
     ∧ (∀ fuel, write_loop (S fuel) Hello 0 never_writes =
          (first :: (write_loop fuel Hello 0 never_writes).1,
           (write_loop fuel Hello 0 never_writes).2))
     ∧ ((∀ (s1 : stalled) d, ∃ s2, write_some s1 d = Wrote 0 s2) →
        ∀ fuel, ∃ s2, (write_loop fuel Hello 0 never_writes).2 = StillRunning 0 s2)).
Proof.
  split; [done|]. split; [reflexivity|].
  apply (write_loop_zero_byte_attempt Hello never_writes never_writes);
    [done|reflexivity].
Defined.


Example write_loop_breaks_off :
  write_loop 4 Hello 0 breaks_off
  = ([ {| at_offset := 0; at_data := list_byte_of_string "Hello" |};
       {| at_offset := 2; at_data := list_byte_of_string "llo" |};
       {| at_offset := 2; at_data := list_byte_of_string "llo" |} ],
     Threw 32%Z 2 {| script := []; wire := list_byte_of_string "He" |}).
Proof. by vm_compute. Qed.

Lemma writeToSocket_equiv_enhanced_witness :
  write_some_contract trickle ∧ makes_progress trickle
  ∧ ∃ s',
      (∀ fuel, (5 ≤ fuel)%nat →
         (writeToSocket fuel two_one_rest).2 = Returned 5 s'
         ∧ writeToSocketEnhanced fuel two_one_rest = Returned 5 s')
      ∧ sent s' = sent two_one_rest ++ list_byte_of_string "Hello"
      ∧ length (list_byte_of_string "Hello") = 5%nat.
Proof.
  split; [exact trickle_contract|]. split; [exact trickle_progress|].
  exact (writeToSocket_equiv_enhanced two_one_rest trickle_contract trickle_progress).
Defined.

End Instances.

Section InstancesChapter1.
Import Ch01Recipe01 Ch01Recipe04 Ch01Recipe06.


(** The port of that endpoint is 3333, and a text that does not parse
    makes the program return 0. *)
Example creatingEndpointClient_literals :
  creatingEndpointClient from_string "127.0.0.1" 3333
  = falls_off_end (tcp_endpoint (address_v4 [127; 0; 0; 1]) 3333)
  ∧ Ch01Recipe01.main from_string "not-an-ip" 3333 3333 = exits 0%Z.
Proof. by vm_compute. Qed.

Lemma not_conforming (str : string) :
  (from_string str).2 ≠ no_error → ¬ conforming str.
Proof. intros Hec Hconf. by apply Hec, from_string_conforming. Qed.

Lemma malformed_address_is_rejected_witness :
  ¬ conforming "600.1.1.1"
  ∧ (from_string "600.1.1.1" = (address_default, invalid_argument)
     ∧ creatingEndpointClient from_string "600.1.1.1" 3333 = returns invalid_argument
     ∧ invalid_argument ≠ no_error
     ∧ (∀ str p ep,
          creatingEndpointClient from_string str p = falls_off_end ep →
          conforming str ∧ whole_address (ep_address ep))).
Proof.
  assert (Hbad : ¬ conforming "600.1.1.1") by (apply not_conforming; by vm_compute).
  split; [exact Hbad|].
  exact (malformed_address_is_rejected "600.1.1.1" 3333 Hbad).
Defined.

Example not_an_ip_is_rejected :
  ¬ conforming "not-an-ip"
  ∧ creatingEndpointClient from_string "not-an-ip" 3333 = returns invalid_argument.
Proof. split; [apply not_conforming|]; by vm_compute. Qed.

Lemma resolve_numeric_service_only_witness :
  hosts loopback_only "localhost" ≠ []
  ∧ ((∃ eps,
        resolve loopback_only
          {| host_name := "localhost"; service_name := "8080";
             numeric_service := true |} = (eps, no_error)
        ∧ eps ≠ [] ∧ Forall (λ e, ep_port e = 8080) eps
        ∧ map ep_address eps = hosts loopback_only "localhost")
     ∧ (∀ host service,
          Exists (λ c, decimal_digit c = None) (list_ascii_of_string service) →
          resolve loopback_only
            {| host_name := host; service_name := service;
               numeric_service := true |} = ([], service_not_found))
     ∧ resolve loopback_only
         {| host_name := "localhost"; service_name := "http";
            numeric_service := true |} = ([], service_not_found)
     ∧ service_not_found ≠ no_error).
Proof.
  split; [done|]. apply (resolve_numeric_service_only loopback_only). done.
Defined.

(** Without the flag the same system resolves the service "http". *)
Example resolve_symbolic_service :
  resolve loopback_only
    {| host_name := "localhost"; service_name := "http"; numeric_service := false |}
  = ([tcp_endpoint (address_v4 [127; 0; 0; 1]) 80], no_error)
  ∧ Ch01Recipe04.main loopback_only "localhost" "8080" = 0%Z
  ∧ Ch01Recipe04.main loopback_only "localhost" "http" = service_not_found.
Proof. by vm_compute. Qed.

Lemma connect_failure_leaves_no_socket_witness :
  from_string "127.0.0.1" = (address_v4 [127; 0; 0; 1], no_error)
  ∧ connect_result refusing
      (tcp_endpoint (address_v4 [127; 0; 0; 1]) (unsigned_short 5000)) ≠ no_error
  ∧ ∃ code k',
      Ch01Recipe06.main from_string refusing "127.0.0.1" 5000 fresh_process
      = (Normal code, k')
      ∧ code ≠ 0%Z
      ∧ open_fds k' = open_fds fresh_process.
Proof.
  split; [by vm_compute|]. split; [done|].
  destruct (connect_failure_leaves_no_socket from_string refusing "127.0.0.1" 5000
              (address_v4 [127; 0; 0; 1]) fresh_process)
    as (code & k' & Hrun & Hcode & Hfds & _); [by vm_compute|done|].
  by exists code, k'.
Defined.

End InstancesChapter1.

(** * Further properties of the recipes *)

(** ** The write loop on any string *)

Section WriteLoopMore.
Context {Sock : Type} `{SyncWriteStream Sock}.
Import Ch02Recipe03.

(** Against a stream that makes progress, every attempt moves the count on
    and none fails. *)
Lemma write_loop_strict (buf : list byte) :
  fits_size_t buf → write_some_contract Sock → makes_progress Sock →
  ∀ (fuel : nat) (total : N) (s : Sock) log o,
    total ≤ string_length buf →
    write_loop fuel buf total s = (log, o) →
    (length log ≤ N.to_nat (string_length buf - total))%nat
    ∧ StronglySorted N.lt (trajectory (log, o))
    ∧ Forall (λ a, total ≤ at_offset a ∧ at_data a ≠ []) log
    ∧ total ≤ bytes_written o
    ∧ (∀ ec t s', o ≠ Threw ec t s').
Proof.
  intros Hfit Hlaw Hprog. unfold trajectory. simpl.
  pose proof (string_length_nat buf) as Hlen.
  induction fuel as [|fuel IH]; intros total s log o Hle Hrun.
  - destruct (N.eq_dec total (string_length buf)) as [Heq|Hne].
    + rewrite write_loop_exit in Hrun by done. inversion Hrun; subst o log. simpl.
      split_and!; [lia|repeat constructor|constructor|lia|done].
    + rewrite write_loop_no_fuel in Hrun by done. inversion Hrun; subst o log. simpl.
      split_and!; [lia|repeat constructor|constructor|lia|done].
  - destruct (N.eq_dec total (string_length buf)) as [Heq|Hne].
    { rewrite write_loop_exit in Hrun by done. inversion Hrun; subst o log. simpl.
      split_and!; [lia|repeat constructor|constructor|lia|done]. }
    rewrite write_loop_step in Hrun by done. cbv zeta in Hrun.
    pose proof (Hlaw s (unwritten_tail buf total)) as Hw.
    rewrite unwritten_tail_in_range in Hrun, Hw by done.
    assert (Hd : drop (N.to_nat total) buf ≠ []).
    { intros Hnil. apply (f_equal length) in Hnil. rewrite length_drop in Hnil.
      simpl in Hnil. lia. }
    destruct (Hprog s _ Hd) as (n & s' & Hsome & Hpos).
    rewrite Hsome in Hrun, Hw. destruct Hw as [Hn _]. rewrite length_drop in Hn.
    unfold fits_size_t in Hfit.
    rewrite size_t_add_in_range in Hrun by lia.
    destruct (write_loop fuel buf (total + n) s') as [log' o'] eqn:Hrec.
    inversion Hrun; subst o log.
    destruct (IH (total + n) s' log' o') as (Hcount & Hsorted & Hdata & Hbw & Hthrew);
      [lia|done|].
    split_and!.
    + simpl. lia.
    + simpl. apply StronglySorted_cons. split; [|done].
      apply Forall_app. split.
      * apply Forall_fmap. eapply Forall_impl; [exact Hdata|].
        simpl. intros a [? _]. lia.
      * repeat constructor. lia.
    + constructor; [simpl; split; [lia|done]|].
      eapply Forall_impl; [exact Hdata|]. simpl. intros a [? ?]. split; [lia|done].
    + lia.
    + done.
Qed.

(** X1. For every string, against every stream whose [write_some] keeps
    its contract and writes at least one byte per attempt, the loop of
    [writeToSocket] returns within as many iterations as the string has
    bytes, with the count equal to the length of the string and the whole
    string sent, in its order, after what the stream had sent before; the
    attempts it made are no more than the bytes of the string. *)
Theorem write_loop_complete (buf : list byte) (s : Sock) :
  fits_size_t buf → write_some_contract Sock → makes_progress Sock →
  ∃ log s',
    (∀ fuel, (length buf ≤ fuel)%nat →
       write_loop fuel buf 0 s = (log, Returned (string_length buf) s'))
    ∧ sent s' = sent s ++ buf
    ∧ (length log ≤ length buf)%nat.
Proof.
  intros Hfit Hlaw Hprog.
  destruct (write_loop_delivers buf Hfit Hlaw Hprog s) as (log & s' & Hrun & Hsent).
  exists log, s'. split; [exact Hrun|]. split; [exact Hsent|].
  assert (Hzero : 0 ≤ string_length buf) by lia.
  destruct (write_loop_strict buf Hfit Hlaw Hprog _ _ _ _ _ Hzero
              (Hrun (length buf) (Nat.le_refl _))) as (Hcount & _).
  pose proof (string_length_nat buf). lia.
Qed.

(** X2. At every point of every run of the loop against a stream whose
    [write_some] keeps its contract, what has been sent since the start is
    exactly the first [total_bytes_written] bytes of the string: no byte
    twice, none left out, none out of order. The count never exceeds the
    length of the string, so that no attempt reaches behind the string,
    and when an attempt has thrown, the count is below the length. *)
Theorem write_loop_sent_prefix (buf : list byte) (fuel : nat) (s : Sock) :
  fits_size_t buf → write_some_contract Sock →
  let run := write_loop fuel buf 0 s in
  sent (socket_of run.2) = sent s ++ take (N.to_nat (bytes_written run.2)) buf
  ∧ Forall (λ t, t ≤ string_length buf) (trajectory run)
  ∧ (∀ ec t s', run.2 = Threw ec t s' → t < string_length buf).
Proof.
  intros Hfit Hlaw. cbv zeta.
  destruct (write_loop fuel buf 0 s) as [log o] eqn:Hrun.
  assert (Hzero : 0 ≤ string_length buf) by lia.
  destruct (write_loop_invariant buf Hfit Hlaw _ _ _ _ _ Hzero Hrun)
    as (Hall & _ & Hbw & Hsent & Hexit).
  split_and!.
  - simpl. by rewrite Hsent, N.sub_0_r, drop_0.
  - unfold trajectory. simpl. apply Forall_app. split.
    + apply Forall_fmap. eapply Forall_impl; [exact Hall|]. simpl. intros a [? _]. lia.
    + repeat constructor. lia.
  - simpl. intros ec t s' ->. exact Hexit.
Qed.

(** X3. Against a stream whose [write_some] keeps its contract and writes
    at least one byte per attempt, at every point of a run the values of
    [total_bytes_written] are strictly increasing, no attempt is handed an
    empty buffer, the attempts are no more than the bytes of the string,
    and nothing has been thrown. *)
Theorem write_loop_strictly_advances (buf : list byte) (fuel : nat) (s : Sock) :
  fits_size_t buf → write_some_contract Sock → makes_progress Sock →
  let run := write_loop fuel buf 0 s in
  StronglySorted N.lt (trajectory run)
  ∧ Forall (λ a, at_data a ≠ []) run.1
  ∧ (length run.1 ≤ length buf)%nat
  ∧ (∀ ec t s', run.2 ≠ Threw ec t s').
Proof.
  intros Hfit Hlaw Hprog. cbv zeta.
  destruct (write_loop fuel buf 0 s) as [log o] eqn:Hrun.
  assert (Hzero : 0 ≤ string_length buf) by lia.
  destruct (write_loop_strict buf Hfit Hlaw Hprog _ _ _ _ _ Hzero Hrun)
    as (Hcount & Hsorted & Hdata & _ & Hthrew).
  pose proof (string_length_nat buf).
  split_and!; [done| |simpl; lia|done].
  eapply Forall_impl; [exact Hdata|]. by intros a [_ ?].
Qed.

(** A run that has thrown has thrown what a [write_some] failed with. *)
Lemma write_loop_threw_code :
  write_failures_are_errors Sock →
  ∀ (fuel : nat) (buf : list byte) (total : N) (s : Sock) log ec t s',
    write_loop fuel buf total s = (log, Threw ec t s') → ec ≠ no_error.
Proof.
  intros Hfail.
  induction fuel as [|fuel IH]; intros buf total s log ec t s' Hrun.
  - simpl in Hrun. by destruct (total =? string_length buf).
  - destruct (N.eq_dec total (string_length buf)) as [Heq|Hne].
    { by rewrite write_loop_exit in Hrun. }
    rewrite write_loop_step in Hrun by done. cbv zeta in Hrun.
    pose proof (Hfail s (unwritten_tail buf total)) as Hw.
    destruct (write_some s (unwritten_tail buf total)) as [n s1|ec1 s1].
    + destruct (write_loop fuel buf (size_t_add total n) s1) as [log' o'] eqn:Hrec.
      inversion Hrun; subst. by eapply IH.
    + by inversion Hrun; subst.
Qed.

End WriteLoopMore.

(** ** Buffers and composite buffers *)

Section BuffersMore.
Import Ch06Recipe01 Ch02Recipe01.

(** X5. The composite input buffer of [CompositeBuffersScatterInput] is
    exactly the three arrays: whatever they hold, what it presents are the
    6 bytes of the first, the 3 of the second and the 7 of the third, in
    that order, every segment lies within its array, and the bytes are as
    many as the total length. The composite output buffer of
    [CompositeBuffersGatherOutput] presents the characters of the three
    literals and none of their terminating NULs. *)
Theorem composite_buffers_cover_their_parts
    (part1 : vec byte 6) (part2 : vec byte 3) (part3 : vec byte 7) :
  gathered (CompositeBuffersScatterInput part1 part2 part3)
  = vec_to_list part1 ++ vec_to_list part2 ++ vec_to_list part3
  ∧ Forall within_memory (CompositeBuffersScatterInput part1 part2 part3)
  ∧ N.of_nat (length (gathered (CompositeBuffersScatterInput part1 part2 part3)))
    = buffer_size (CompositeBuffersScatterInput part1 part2 part3)
  ∧ gathered CompositeBuffersGatherOutput = list_byte_of_string "Hello my friend!"
  ∧ Forall within_memory CompositeBuffersGatherOutput.
Proof.
  assert (Hin : Forall within_memory (CompositeBuffersScatterInput part1 part2 part3)).
  { unfold CompositeBuffersScatterInput, push_back, within_memory. simpl app.
    rewrite !Forall_cons, Forall_nil. cbn [buf_size buf_data mutable_buffer].
    rewrite !length_vec_to_list. unfold sizeof. lia. }
  split_and!; [|done|by apply gathered_length|done|].
  - unfold CompositeBuffersScatterInput, push_back, gathered, segment_bytes,
      asio_buffer, sizeof. simpl concat.
    rewrite !take_ge by (rewrite length_vec_to_list; lia).
    by rewrite app_nil_r.
  - unfold CompositeBuffersGatherOutput, push_back, within_memory. simpl app.
    rewrite !Forall_cons, Forall_nil. split_and!; [| | |done]; vm_compute; lia.
Qed.

(** X6. The representation [FixedLengthBufferOutput] makes of a string is
    the whole string and nothing else: its size is the length of the
    string, it lies within the memory of the string, and the bytes an
    output operation reads through it are the characters of the string
    without the terminating NUL. The representation
    [FixedLengthBufferInput] makes of the allocated array is the whole
    array of 20 bytes, whatever it holds. *)
Theorem fixed_length_buffers_cover (buf : list byte) (array : vec byte 20) :
  buf_size (FixedLengthBufferOutput buf) = string_length buf
  ∧ within_memory (FixedLengthBufferOutput buf)
  ∧ segment_bytes (FixedLengthBufferOutput buf) = buf
  ∧ buf_size (FixedLengthBufferInput array) = 20
  ∧ within_memory (FixedLengthBufferInput array)
  ∧ segment_bytes (FixedLengthBufferInput array) = vec_to_list array.
Proof.
  pose proof (string_length_nat buf) as Hlen.
  unfold FixedLengthBufferOutput, FixedLengthBufferInput, buffer_of_string,
    within_memory, segment_bytes, asio_buffer, c_str. simpl.
  split_and!; [done| | |done| |].
  - rewrite length_app. lia.
  - rewrite Hlen. apply take_app_length.
  - rewrite length_vec_to_list. by vm_compute.
  - apply take_ge. rewrite length_vec_to_list. by vm_compute.
Qed.

End BuffersMore.

Section WriteAllMore.
Context {Sock : Type} `{SyncWriteStream Sock}.
Import Ch02Recipe03 Ch06Recipe01.

(** X7. For every composite buffer whose segments lie within their memory
    and whose total length fits [size_t], against every stream whose
    [write_some] keeps its contract and writes at least one byte per
    attempt, the loop run over the composite buffer returns within as many
    iterations as the total length, with the count equal to the total
    length and the bytes of all segments sent in the order of the
    segments; the number of segments plays no part. *)
Theorem writeAll_complete (data : list simple_buffer) (s : Sock) :
  Forall within_memory data → buffer_size data < size_t_modulus →
  write_some_contract Sock → makes_progress Sock →
  ∃ log s',
    (∀ fuel, (N.to_nat (buffer_size data) ≤ fuel)%nat →
       writeAll fuel s data = (log, Returned (buffer_size data) s'))
    ∧ sent s' = sent s ++ gathered data.
Proof.
  intros Hin Hfit Hlaw Hprog.
  pose proof (gathered_length data Hin) as Hlen.
  assert (Hfits : fits_size_t (gathered data)).
  { unfold fits_size_t, string_length. by rewrite Hlen. }
  destruct (write_loop_delivers (gathered data) Hfits Hlaw Hprog s)
    as (log & s' & Hrun & Hsent).
  exists log, s'. split; [|exact Hsent].
  intros fuel Hfuel. unfold writeAll. rewrite Hrun by lia.
  unfold string_length. by rewrite Hlen.
Qed.

End WriteAllMore.

(** ** The connecting program on every path *)

Section ConnectorMore.
Import Ch01Recipe06.
Variable parse : string → address * error_code.

(** X8. Whatever the address text, the port, the network and the state of
    the kernel, [main] of chapter 1, recipe 6, returns (its handler catches
    everything thrown in the block) and the process then holds exactly the
    descriptors it held before. Either it has made no call on sockets at
    all, or it has opened one socket on a descriptor that was not in use,
    tried once to connect it and closed it: also when the connection
    succeeded, the socket does not outlive the block. *)
Theorem connector_holds_no_descriptor
    (net : network) (raw_ip_address : string) (port : N) (k : kernel) :
  let ep := tcp_endpoint (parse raw_ip_address).1 (unsigned_short port) in
  ∃ code k',
    main parse net raw_ip_address port k = (Normal code, k')
    ∧ open_fds k' = open_fds k
    ∧ (syscalls k' = syscalls k
       ∨ ∃ fd, (fd ∉ open_fds k)
               ∧ syscalls k' =
                   (syscalls k ++
                      [sys_socket fd; sys_connect fd ep (connect_result net ep);
                       sys_close fd])).
Proof.
  intros ep. subst ep.
  unfold main, try_catch, from_string_or_throw.
  destruct (parse raw_ip_address) as [ip ec]. cbn [fst].
  destruct (Z.eqb_spec ec 0) as [->|Hec]; cbn [negb].
  2: { eexists _, _. split; [reflexivity|]. split; [done|by left]. }
  unfold mbind, M_bind, mret, M_ret, with_socket, socket_open.
  destruct (size (open_fds k) <? fd_limit net)%nat.
  2: { eexists _, _. split; [reflexivity|]. split; [done|by left]. }
  unfold socket_connect, socket_close, record.
  pose proof (is_fresh (open_fds k)) as Hfresh.
  destruct (Z.eqb_spec (connect_result net (tcp_endpoint ip (unsigned_short port))) 0)
    as [Hc|Hc]; cbn.
  all: eexists _, _; split; [reflexivity|]; cbn;
    split; [apply with_socket_closes_fresh|]; right;
    exists (fresh (open_fds k)); split; [done|]; by rewrite <- !app_assoc.
Qed.

(** X9. [main] of chapter 1, recipe 6, returns 0 exactly when the address
    text parsed, the process could take one more descriptor and the
    network accepted the connection; in every other case it returns the
    code of the error, which is not 0. *)
Theorem connector_exit_code
    (net : network) (raw_ip_address : string) (port : N) (k : kernel) :
  let ep := tcp_endpoint (parse raw_ip_address).1 (unsigned_short port) in
  ∃ code k',
    main parse net raw_ip_address port k = (Normal code, k')
    ∧ (code = 0%Z
       ↔ (parse raw_ip_address).2 = no_error
         ∧ (size (open_fds k) < fd_limit net)%nat
         ∧ connect_result net ep = no_error).
Proof.
  intros ep. subst ep.
  unfold main, try_catch, from_string_or_throw.
  destruct (parse raw_ip_address) as [ip ec]. cbn [fst snd].
  destruct (Z.eqb_spec ec 0) as [->|Hec]; cbn [negb].
  2: { eexists _, _. split; [reflexivity|]. split; [done|by intros [? _]]. }
  unfold mbind, M_bind, mret, M_ret, with_socket, socket_open.
  destruct (Nat.ltb_spec (size (open_fds k)) (fd_limit net)) as [Hlim|Hlim].
  2: { eexists _, _. split; [reflexivity|]. split; [done|]. intros (_ & ? & _). lia. }
  unfold socket_connect, socket_close, record.
  destruct (Z.eqb_spec (connect_result net (tcp_endpoint ip (unsigned_short port))) 0)
    as [Hc|Hc]; cbn.
  - eexists _, _. split; [reflexivity|]. done.
  - eexists _, _. split; [reflexivity|]. split; [done|by intros (_ & _ & ?)].
Qed.

(** X10. When the address text does not parse, [main] of chapter 1,
    recipe 6, returns the error code of the parser and has not touched
    the kernel: no socket is opened for an address that is not one. *)
Theorem connector_rejects_bad_address
    (net : network) (raw_ip_address : string) (port : N) (k : kernel) :
  (parse raw_ip_address).2 ≠ no_error →
  main parse net raw_ip_address port k = (Normal (parse raw_ip_address).2, k).
Proof.
  intros Hec. unfold main, try_catch, from_string_or_throw.
  destruct (parse raw_ip_address) as [ip ec]. cbn [snd] in *.
  by destruct (Z.eqb_spec ec 0).
Qed.

End ConnectorMore.

(** ** The program around [writeToSocket] *)

Section ProgramMore.
Import Ch01Recipe06 Ch02Recipe03 Ch02Recipe03Main.
Variable parse : string → address * error_code.
Context {Sock : Type} `{SyncWriteStream Sock}.

(** X11. Whenever [main] of chapter 2, recipe 3, has returned, on whatever
    path, the process holds exactly the descriptors it held before; while
    the loop of [writeToSocket] is running it holds one more, the one of
    the socket. *)
Theorem program_holds_no_descriptor
    (net : network) (fuel : nat) (raw_ip_address : string) (port : N)
    (peer : Sock) (k : kernel) :
  let run := Ch02Recipe03Main.main parse net fuel raw_ip_address port peer k in
  match run.1.1 with
  | Exited _ => open_fds run.1.2 = open_fds k
  | InLoop => open_fds run.1.2 = {[fresh (open_fds k)]} ∪ open_fds k
  end.
Proof.
  cbv zeta. unfold Ch02Recipe03Main.main, from_string_or_throw.
  destruct (parse raw_ip_address) as [ip ec].
  destruct (Z.eqb_spec ec 0) as [->|Hec]; cbn [negb]; [|done].
  unfold mret, M_ret, socket_open.
  destruct (size (open_fds k) <? fd_limit net)%nat; [|done].
  unfold socket_connect, socket_close, record.
  destruct (Z.eqb_spec (connect_result net (tcp_endpoint ip (unsigned_short port))) 0)
    as [Hc|Hc]; cbn [fst snd open_fds].
  - destruct (writeToSocket fuel peer).2; cbn [fst snd open_fds];
      [apply with_socket_closes_fresh|apply with_socket_closes_fresh|done].
  - apply with_socket_closes_fresh.
Qed.

(** X12. Nothing is written without a connection: when the address text
    does not parse, or the process can take no more descriptor, or the
    network refuses the connection, [main] returns an error code that is
    not 0, the stream is in the state it was in, and the process holds the
    descriptors it held. *)
Theorem program_writes_only_when_connected
    (net : network) (fuel : nat) (raw_ip_address : string) (port : N)
    (peer : Sock) (k : kernel) :
  let ep := tcp_endpoint (parse raw_ip_address).1 (unsigned_short port) in
  (parse raw_ip_address).2 ≠ no_error
  ∨ (fd_limit net ≤ size (open_fds k))%nat
  ∨ connect_result net ep ≠ no_error →
  ∃ code k',
    Ch02Recipe03Main.main parse net fuel raw_ip_address port peer k
    = (Exited code, k', peer)
    ∧ code ≠ 0%Z ∧ open_fds k' = open_fds k.
Proof.
  intros ep. subst ep. unfold Ch02Recipe03Main.main, from_string_or_throw.
  destruct (parse raw_ip_address) as [ip ec]. cbn [fst snd].
  destruct (Z.eqb_spec ec 0) as [->|Hec]; cbn [negb].
  2: { intros _. by eexists _, _. }
  unfold mret, M_ret, socket_open.
  destruct (Nat.ltb_spec (size (open_fds k)) (fd_limit net)) as [Hlim|Hlim].
  2: { intros _. by eexists _, _. }
  unfold socket_connect, socket_close, record.
  destruct (Z.eqb_spec (connect_result net (tcp_endpoint ip (unsigned_short port))) 0)
    as [Hc|Hc]; cbn [fst snd].
  - intros [?|[?|?]]; [done|lia|done].
  - intros _. eexists _, _. split; [reflexivity|]. split; [done|].
    apply with_socket_closes_fresh.
Qed.

(** X13. When the address text parses, the process can take a descriptor,
    the network accepts the connection and the stream keeps the contract
    of [write_some] and writes at least one byte per attempt, [main]
    returns 0 within 5 iterations of the loop, having sent the 5 bytes of
    "Hello" in their order; the calls it has made are one [socket], one
    [connect] and one [close] of the same descriptor, and the process
    holds the descriptors it held. *)
Theorem program_sends_hello
    (net : network) (fuel : nat) (raw_ip_address : string) (port : N)
    (ip_address : address) (peer : Sock) (k : kernel) :
  parse raw_ip_address = (ip_address, no_error) →
  (size (open_fds k) < fd_limit net)%nat →
  let ep := tcp_endpoint ip_address (unsigned_short port) in
  connect_result net ep = no_error →
  write_some_contract Sock → makes_progress Sock → (5 ≤ fuel)%nat →
  ∃ k' peer',
    Ch02Recipe03Main.main parse net fuel raw_ip_address port peer k
    = (Exited 0%Z, k', peer')
    ∧ sent peer' = sent peer ++ list_byte_of_string "Hello"
    ∧ open_fds k' = open_fds k
    ∧ syscalls k' =
        (syscalls k ++
           [sys_socket (fresh (open_fds k));
            sys_connect (fresh (open_fds k)) ep no_error;
            sys_close (fresh (open_fds k))]).
Proof.
  intros Hparse Hlim ep Hconn Hlaw Hprog Hfuel. subst ep.
  destruct (write_loop_delivers Hello) with (s := peer)
    as (log & peer' & Hrun & Hsent); [by vm_compute|done|done|].
  unfold Ch02Recipe03Main.main, from_string_or_throw. rewrite Hparse.
  cbn [negb Z.eqb no_error]. unfold mret, M_ret, socket_open.
  apply Nat.ltb_lt in Hlim. rewrite Hlim.
  unfold socket_connect, socket_close, record. rewrite Hconn.
  cbn [Z.eqb no_error fst snd].
  unfold writeToSocket. rewrite (Hrun fuel Hfuel). cbn [fst snd].
  eexists _, _. split; [reflexivity|]. split; [exact Hsent|]. cbn.
  split; [apply with_socket_closes_fresh|]. by rewrite <- !app_assoc.
Qed.

(** X14. The exit code of [main] tells what was delivered. Against a
    stream that keeps the contract of [write_some] and whose failures carry
    an error code other than 0, whenever [main] has returned, what has been
    sent is a prefix of "Hello", and the exit code is 0 exactly when that
    prefix is the whole of it: a code other than 0 means that fewer than
    the 5 bytes went out, and those that did are not taken back. *)
Theorem program_exit_code_tells_delivery
    (net : network) (fuel : nat) (raw_ip_address : string) (port : N)
    (peer peer' : Sock) (k k' : kernel) (code : Z) :
  write_some_contract Sock → write_failures_are_errors Sock →
  Ch02Recipe03Main.main parse net fuel raw_ip_address port peer k
  = (Exited code, k', peer') →
  ∃ n : nat,
    (n ≤ 5)%nat
    ∧ sent peer' = sent peer ++ take n (list_byte_of_string "Hello")
    ∧ (code = 0%Z ↔ n = 5%nat).
Proof.
  intros Hlaw Hfail.
  assert (Hnone : sent peer = sent peer ++ take 0 (list_byte_of_string "Hello"))
    by (by rewrite take_0, app_nil_r).
  unfold Ch02Recipe03Main.main, from_string_or_throw.
  destruct (parse raw_ip_address) as [ip ec].
  destruct (Z.eqb_spec ec 0) as [->|Hec]; cbn [negb].
  2: { intros [= <- _ <-]. exists 0%nat. split; [lia|]. split; [done|]. split; [done|lia]. }
  unfold mret, M_ret, socket_open.
  destruct (size (open_fds k) <? fd_limit net)%nat.
  2: { intros [= <- _ <-]. exists 0%nat. split; [lia|]. split; [done|].
       split; [done|lia]. }
  unfold socket_connect, socket_close, record.
  destruct (Z.eqb_spec (connect_result net (tcp_endpoint ip (unsigned_short port))) 0)
    as [Hc|Hc]; cbn [fst snd].
  2: { intros [= <- _ <-]. exists 0%nat. split; [lia|]. split; [done|].
       split; [done|lia]. }
  unfold writeToSocket.
  destruct (write_loop fuel Hello 0 peer) as [log o] eqn:Hrun.
  assert (Hfit : fits_size_t Hello) by (by vm_compute).
  assert (Hzero : 0 ≤ string_length Hello) by lia.
  destruct (write_loop_invariant Hello Hfit Hlaw _ _ _ _ _ Hzero Hrun)
    as (_ & _ & Hbw & Hsent & Hexit).
  rewrite N.sub_0_r, drop_0 in Hsent.
  change (string_length Hello) with 5 in *.
  destruct o as [t s'|ec t s'|t s']; cbn [fst snd]; [| |done]; simpl in *.
  - intros [= <- _ <-]. exists 5%nat. subst t. by rewrite Hsent.
  - intros [= <- _ <-]. exists (N.to_nat t). split; [lia|]. split; [done|].
    pose proof (write_loop_threw_code Hfail _ _ _ _ _ _ _ _ Hrun) as Hne.
    unfold no_error in Hne. split; [done|lia].
Qed.

End ProgramMore.

(** ** The two ways of writing, on every stream *)

Section EnhancedMore.
Import Ch02Recipe03.
Context {Sock : Type} `{SyncWriteStream Sock}.

(** X15. Against every stream whose [write_some] keeps its contract,
    also one that stalls or fails, [writeToSocketEnhanced] stands after
    any number of iterations exactly where [writeToSocket] stands: both
    have returned, or both have thrown the same error code, or both are
    still running, with the same count of bytes written and the stream in
    the same state. *)
Theorem writeToSocketEnhanced_same_outcome (fuel : nat) (s : Sock) :
  write_some_contract Sock →
  writeToSocketEnhanced fuel s = (writeToSocket fuel s).2.
Proof.
  intros Hlaw. unfold writeToSocketEnhanced, asio_write, writeToSocket.
  rewrite <- (asio_write_loop_simulates Hello); [done|by vm_compute|done|by vm_compute].
Qed.

End EnhancedMore.

(** * The further properties at concrete inputs *)

Lemma fragile_contract : write_some_contract fragile.
Proof.
  intros [al code out] d. simpl. unfold fragile_write_some. simpl.
  destruct al as [|c rest]; simpl; [done|].
  rewrite Nat2N.id. split; [lia|done].
Qed.

Lemma fragile_failures : write_failures_are_errors fragile.
Proof.
  intros [al code out] d. simpl. unfold fragile_write_some. simpl.
  by destruct al.
Qed.

Section InstancesMore.
Import Ch02Recipe03 Ch06Recipe01 Ch01Recipe06 Ch02Recipe03Main.

Lemma write_loop_complete_witness :
  fits_size_t (list_byte_of_string "Hello my friend!")
  ∧ write_some_contract trickle ∧ makes_progress trickle
  ∧ ∃ log s',
      (∀ fuel, (length (list_byte_of_string "Hello my friend!") ≤ fuel)%nat →
         write_loop fuel (list_byte_of_string "Hello my friend!") 0 two_one_rest
         = (log, Returned (string_length (list_byte_of_string "Hello my friend!")) s'))
      ∧ sent s' = sent two_one_rest ++ list_byte_of_string "Hello my friend!"
      ∧ (length log ≤ length (list_byte_of_string "Hello my friend!"))%nat.
Proof.
  split; [by vm_compute|]. split; [exact trickle_contract|].
  split; [exact trickle_progress|].
  apply (write_loop_complete (list_byte_of_string "Hello my friend!") two_one_rest);
    [by vm_compute|exact trickle_contract|exact trickle_progress].
Defined.

Lemma write_loop_sent_prefix_witness :
  fits_size_t Hello ∧ write_some_contract scripted
  ∧ (let run := write_loop 4 Hello 0 breaks_off in
     sent (socket_of run.2) = sent breaks_off ++ take (N.to_nat (bytes_written run.2)) Hello
     ∧ Forall (λ t, t ≤ string_length Hello) (trajectory run)
     ∧ (∀ ec t s', run.2 = Threw ec t s' → t < string_length Hello)).
Proof.
  split; [by vm_compute|]. split; [exact scripted_contract|].
  apply (write_loop_sent_prefix Hello 4 breaks_off);
    [by vm_compute|exact scripted_contract].
Defined.

Lemma write_loop_strictly_advances_witness :
  fits_size_t Hello ∧ write_some_contract trickle ∧ makes_progress trickle
  ∧ (let run := write_loop 2 Hello 0 two_one_rest in
     StronglySorted N.lt (trajectory run)
     ∧ Forall (λ a, at_data a ≠ []) run.1
     ∧ (length run.1 ≤ length Hello)%nat
     ∧ (∀ ec t s', run.2 ≠ Threw ec t s')).
Proof.
  split; [by vm_compute|]. split; [exact trickle_contract|].
  split; [exact trickle_progress|].
  apply (write_loop_strictly_advances Hello 2 two_one_rest);
    [by vm_compute|exact trickle_contract|exact trickle_progress].
Defined.

Lemma writeAll_complete_witness :
  let data := [const_buffer (literal "ab") 2; const_buffer (literal "") 0;
               const_buffer (literal "cde") 3] in
  Forall within_memory data ∧ buffer_size data < size_t_modulus
  ∧ write_some_contract trickle ∧ makes_progress trickle
  ∧ ∃ log s',
      (∀ fuel, (N.to_nat (buffer_size data) ≤ fuel)%nat →
         writeAll fuel two_one_rest data = (log, Returned (buffer_size data) s'))
      ∧ sent s' = sent two_one_rest ++ gathered data.
Proof.
  intros data.
  assert (Hin : Forall within_memory data).
  { unfold data, within_memory. rewrite !Forall_cons, Forall_nil.
    split_and!; [| | |done]; vm_compute; lia. }
  split; [exact Hin|]. split; [by vm_compute|].
  split; [exact trickle_contract|]. split; [exact trickle_progress|].
  apply (writeAll_complete data two_one_rest Hin);
    [by vm_compute|exact trickle_contract|exact trickle_progress].
Defined.

Example writeAll_with_empty_segment :
  writeAll 5 two_one_rest
    [const_buffer (literal "ab") 2; const_buffer (literal "") 0;
     const_buffer (literal "cde") 3]
  = ([ {| at_offset := 0; at_data := list_byte_of_string "abcde" |};
       {| at_offset := 2; at_data := list_byte_of_string "cde" |};
       {| at_offset := 3; at_data := list_byte_of_string "de" |} ],
     Returned 5 {| chunks := []; trickle_out := list_byte_of_string "abcde" |}).
Proof. by vm_compute. Qed.

Lemma connector_rejects_bad_address_witness :
  (from_string "not-an-ip").2 ≠ no_error
  ∧ Ch01Recipe06.main from_string refusing "not-an-ip" 5000 fresh_process
    = (Normal (from_string "not-an-ip").2, fresh_process).
Proof.
  assert (Hbad : (from_string "not-an-ip").2 ≠ no_error) by (by vm_compute).
  split; [exact Hbad|].
  exact (connector_rejects_bad_address from_string refusing "not-an-ip" 5000
           fresh_process Hbad).
Defined.

Lemma program_writes_only_when_connected_witness :
  (let ep := tcp_endpoint (from_string "127.0.0.1").1 (unsigned_short 5000) in
   (from_string "127.0.0.1").2 ≠ no_error
   ∨ (fd_limit refusing ≤ size (open_fds fresh_process))%nat
   ∨ connect_result refusing ep ≠ no_error)
  ∧ ∃ code k',
      Ch02Recipe03Main.main from_string refusing 5 "127.0.0.1" 5000
        two_one_rest fresh_process
      = (Exited code, k', two_one_rest)
      ∧ code ≠ 0%Z ∧ open_fds k' = open_fds fresh_process.
Proof.
  assert (Hrefused :
    let ep := tcp_endpoint (from_string "127.0.0.1").1 (unsigned_short 5000) in
    (from_string "127.0.0.1").2 ≠ no_error
    ∨ (fd_limit refusing ≤ size (open_fds fresh_process))%nat
    ∨ connect_result refusing ep ≠ no_error) by (by right; right).
  split; [exact Hrefused|].
  exact (program_writes_only_when_connected from_string refusing 5 "127.0.0.1" 5000
           two_one_rest fresh_process Hrefused).
Defined.

Lemma fresh_process_has_room :
  (size (open_fds fresh_process) < fd_limit accepting)%nat.
Proof. apply Nat.ltb_lt. by vm_compute. Qed.

Lemma program_sends_hello_witness :
  from_string "127.0.0.1" = (address_v4 [127; 0; 0; 1], no_error)
  ∧ (size (open_fds fresh_process) < fd_limit accepting)%nat
  ∧ connect_result accepting
      (tcp_endpoint (address_v4 [127; 0; 0; 1]) (unsigned_short 5000)) = no_error
  ∧ write_some_contract trickle ∧ makes_progress trickle ∧ (5 ≤ 5)%nat
  ∧ ∃ k' peer',
      Ch02Recipe03Main.main from_string accepting 5 "127.0.0.1" 5000
        two_one_rest fresh_process
      = (Exited 0%Z, k', peer')
      ∧ sent peer' = sent two_one_rest ++ list_byte_of_string "Hello"
      ∧ open_fds k' = open_fds fresh_process.
Proof.
  assert (Hparse : from_string "127.0.0.1" = (address_v4 [127; 0; 0; 1], no_error))
    by (by vm_compute).
  split; [exact Hparse|]. split; [exact fresh_process_has_room|].
  split; [done|]. split; [exact trickle_contract|].
  split; [exact trickle_progress|]. split; [done|].
  destruct (program_sends_hello from_string accepting 5 "127.0.0.1" 5000
              (address_v4 [127; 0; 0; 1]) two_one_rest fresh_process
              Hparse fresh_process_has_room eq_refl
              trickle_contract trickle_progress (Nat.le_refl 5))
    as (k' & peer' & Hrun & Hsent & Hfds & _).
  by exists k', peer'.
Defined.

Lemma program_exit_code_tells_delivery_witness :
  let run := Ch02Recipe03Main.main from_string accepting 5 "127.0.0.1" 5000
               two_then_broken fresh_process in
  write_some_contract fragile ∧ write_failures_are_errors fragile
  ∧ run = (Exited 32%Z, run.1.2, run.2)
  ∧ ∃ n : nat,
      (n ≤ 5)%nat
      ∧ sent run.2 = sent two_then_broken ++ take n (list_byte_of_string "Hello")
      ∧ (32%Z = 0%Z ↔ n = 5%nat).
Proof.
  intros run.
  assert (Hrun : run = (Exited 32%Z, run.1.2, run.2)) by (by vm_compute).
  split; [exact fragile_contract|]. split; [exact fragile_failures|].
  split; [exact Hrun|].
  exact (program_exit_code_tells_delivery from_string accepting 5 "127.0.0.1" 5000
           two_then_broken run.2 fresh_process run.1.2 32%Z
           fragile_contract fragile_failures Hrun).
Defined.

(** The run against the socket that breaks after 2 bytes: the exit code
    is that of the failure and "He" has gone out. *)
Example program_two_then_broken :
  let run := Ch02Recipe03Main.main from_string accepting 5 "127.0.0.1" 5000
               two_then_broken fresh_process in
  run.1.1 = Exited 32%Z
  ∧ sent run.2 = list_byte_of_string "He"
  ∧ syscalls run.1.2
    = [sys_socket 3%nat;
       sys_connect 3%nat (tcp_endpoint (address_v4 [127; 0; 0; 1]) 5000) 0%Z;
       sys_close 3%nat].
Proof. by vm_compute. Qed.

End InstancesMore.

Section InstancesEnhanced.
Import Ch02Recipe03.

Lemma writeToSocketEnhanced_same_outcome_witness :
  write_some_contract scripted
  ∧ writeToSocketEnhanced 4 breaks_off = (writeToSocket 4 breaks_off).2.
Proof.
  split; [exact scripted_contract|].
  exact (writeToSocketEnhanced_same_outcome 4 breaks_off scripted_contract).
Defined.

Example writeToSocketEnhanced_breaks_off :
  writeToSocketEnhanced 4 breaks_off
  = Threw 32%Z 2 {| script := []; wire := list_byte_of_string "He" |}.
Proof. by vm_compute. Qed.

End InstancesEnhanced.
